(** * cert-webhook-system: the event model and the RabbitMQ client

    A shallow embedding of [internal/event/event.go] and
    [internal/rabbitmq/client.go], and the properties of the
    event-publishing core established on it.

    Conventions of the embedding.
    - A Go [string] is a [string] of bytes.
    - A Go [map[string]string] is either the nil map or an allocated finite
      map ([GoMap]); a Go [[]string] is either the nil slice or an allocated
      sequence ([GoSlice]).  Both distinctions are visible to consumers of
      the JSON encoding ([null] against [{}] and [[]]).
    - A Go [error] is [option string]: [None] is the nil error and [Some m]
      an error whose message is [m]; [fmt.Errorf] with [%w] or [%v] yields
      the concatenation of the format text and the wrapped message. *)

From Stdlib Require Import ZArith Lia Ascii.
From stdpp Require Import gmap strings list pretty.

Module event.

(** ** Go values *)

Inductive GoMap : Type :=
| nil_map
| mk_map (m : gmap string string).

(** [m[k]] on a [map[string]string]: the zero value on a missing key, and on
    every key of the nil map. *)
Definition index (m : GoMap) (k : string) : string :=
  match m with
  | nil_map => ""
  | mk_map m => default "" (m !! k)
  end.

Inductive GoSlice : Type :=
| nil_slice
| mk_slice (elems : list string).

Definition elements (s : GoSlice) : list string :=
  match s with
  | nil_slice => []
  | mk_slice l => l
  end.

(** [append(s, x)]: the result is always allocated. *)
Definition append (s : GoSlice) (x : string) : GoSlice :=
  mk_slice (elements s ++ [x]).

(** ** The functions of package [strings] that the event model calls *)

(** [strings.HasPrefix]. *)
Fixpoint HasPrefix (s prefix : string) : bool :=
  match prefix, s with
  | EmptyString, _ => true
  | String a p, String b r => if decide (a = b) then HasPrefix r p else false
  | String _ _, EmptyString => false
  end.

(** [strings.SplitSeq(s, sep)] for a one-byte separator, which is how the
    event model calls it: the substrings of [s] between the occurrences of
    [sep], in order; a string without [sep] (the empty one included) yields
    itself alone. *)
Fixpoint SplitSeq (s : string) (sep : ascii) : list string :=
  match s with
  | EmptyString => [EmptyString]
  | String c r =>
      if decide (c = sep) then EmptyString :: SplitSeq r sep
      else match SplitSeq r sep with
           | t :: ts => String c t :: ts
           | [] => [String c EmptyString]
           end
  end.

(** The UTF-8 encodings of the code points for which [unicode.IsSpace]
    holds: tab, line feed, vertical tab, form feed, carriage return, space,
    U+0085, U+00A0, U+1680, U+2000 to U+200A, U+2028, U+2029, U+202F, U+205F
    and U+3000. *)
Definition utf8 (bytes : list nat) : string :=
  String.string_of_list_ascii (map ascii_of_nat bytes).

Definition white_space : list string :=
  map utf8
    [ [9]; [10]; [11]; [12]; [13]; [32];
      [194; 133]; [194; 160];
      [225; 154; 128];
      [226; 128; 128]; [226; 128; 129]; [226; 128; 130]; [226; 128; 131];
      [226; 128; 132]; [226; 128; 133]; [226; 128; 134]; [226; 128; 135];
      [226; 128; 136]; [226; 128; 137]; [226; 128; 138];
      [226; 128; 168]; [226; 128; 169]; [226; 128; 175];
      [226; 129; 159];
      [227; 128; 128] ].

(** [strip p s] removes the prefix [p] from [s], if [s] starts with it. *)
Fixpoint strip (p s : string) : option string :=
  match p, s with
  | EmptyString, _ => Some s
  | String a p', String b s' => if decide (a = b) then strip p' s' else None
  | String _ _, EmptyString => None
  end.

(** The rest of [s] after one leading rune out of [runes], if it has one. *)
Fixpoint strip_rune (runes : list string) (s : string) : option string :=
  match runes with
  | [] => None
  | r :: runes' =>
      match strip r s with
      | Some rest => Some rest
      | None => strip_rune runes' s
      end
  end.

(** Dropping leading runes of [runes] for as long as there is one; [n]
    bounds the number of runes dropped. *)
Fixpoint trim_left (n : nat) (runes : list string) (s : string) : string :=
  match n with
  | O => s
  | S n' =>
      match strip_rune runes s with
      | Some rest => trim_left n' runes rest
      | None => s
      end
  end.

(** [strings.TrimLeftFunc(s, unicode.IsSpace)]: a string of [n] bytes has at
    most [n] leading runes. *)
Definition TrimLeftSpace (s : string) : string :=
  trim_left (String.length s) white_space s.

(** [strings.TrimRightFunc(s, unicode.IsSpace)].  The last rune of a string
    is found by walking back to the nearest byte that starts an encoding, so
    a trailing white-space rune is a suffix equal to its encoding: trailing
    runes are the leading runes of the reversed string. *)
Definition TrimRightSpace (s : string) : string :=
  String.rev (trim_left (String.length s) (map String.rev white_space) (String.rev s)).

(** [strings.TrimSpace]. *)
Definition TrimSpace (s : string) : string :=
  TrimRightSpace (TrimLeftSpace s).

(** ** event.go *)

Definition WebhookEnabledLabel : string := "cert-webhook.golder.tech/enabled".
Definition AnnotationPrefix : string := "cert-webhook.golder.tech/".
Definition DefaultExchange : string := "certificate-events".
Definition DefaultRoutingKey : string := "certificate.renewed".

(** [Metadata] is a [map[string]any]; the only values [NewMessage] ever
    stores in it are of type [map[string]string]. *)
Record Message : Type := mkMessage {
  Event : string;
  Certificate : string;
  Namespace : string;
  SecretName : string;
  TargetType : string;
  DockerEngine : string;
  DockerComposePath : string;
  ContainerNames : GoSlice;
  Timestamp : Z;
  Trigger : string;
  Metadata : gmap string GoMap
}.

(** The loop of [ParseContainerNames] over the tokens, from the slice held in
    [names]. *)
Definition collect_names (names : GoSlice) (tokens : list string) : GoSlice :=
  fold_left
    (fun names name =>
       let trimmed := TrimSpace name in
       if decide (trimmed = "") then names else append names trimmed)
    tokens names.

Definition ParseContainerNames (containerNamesStr : string) : GoSlice :=
  if decide (containerNamesStr = "") then mk_slice []
  else collect_names (mk_slice []) (SplitSeq containerNamesStr ",").

(** [FilterAnnotations]: a fresh map with the entries whose key has the
    prefix.  Ranging over the nil map visits nothing. *)
Definition FilterAnnotations (annotations : GoMap) (prefix : string) : GoMap :=
  match annotations with
  | nil_map => mk_map ∅
  | mk_map m => mk_map (filter (fun kv => HasPrefix kv.1 prefix = true) m)
  end.

(** [NewMessage]; [now] is the value of [time.Now().Unix()] at the call. *)
Definition NewMessage (name namespace secretName : string)
    (labels annotations : GoMap) (now : Z) : Message :=
  let annotations :=
    match annotations with
    | nil_map => mk_map ∅
    | mk_map _ => annotations
    end in
  {| Event := "certificate.renewed";
     Certificate := name;
     Namespace := namespace;
     SecretName := secretName;
     TargetType := index annotations (AnnotationPrefix +:+ "target");
     DockerEngine := index annotations (AnnotationPrefix +:+ "docker-engine");
     DockerComposePath := index annotations (AnnotationPrefix +:+ "docker-compose-path");
     ContainerNames :=
       ParseContainerNames (index annotations (AnnotationPrefix +:+ "container-names"));
     Timestamp := now;
     Trigger := "cert-manager-webhook";
     Metadata :=
       <["labels" := labels]>
         (<["annotations" := FilterAnnotations annotations AnnotationPrefix]> ∅) |}.

Definition ExchangeAndRoutingKey (annotations : GoMap) : string * string :=
  let exchange := index annotations (AnnotationPrefix +:+ "rabbitmq-exchange") in
  let exchange := if decide (exchange = "") then DefaultExchange else exchange in
  let routingKey := index annotations (AnnotationPrefix +:+ "rabbitmq-routing-key") in
  let routingKey := if decide (routingKey = "") then DefaultRoutingKey else routingKey in
  (exchange, routingKey).

(** The comma-ok form [v, ok := m[k]]. *)
Definition lookup_ok (m : GoMap) (k : string) : option string :=
  match m with
  | nil_map => None
  | mk_map m => m !! k
  end.

(** [strings.Join(tokens, sep)] for a one-byte separator, the inverse of
    [SplitSeq]. *)
Fixpoint Join (tokens : list string) (sep : ascii) : string :=
  match tokens with
  | [] => ""
  | [t] => t
  | t :: ts => t +:+ String sep (Join ts sep)
  end.

(** [s] contains the byte [c]. *)
Fixpoint contains_byte (c : ascii) (s : string) : bool :=
  match s with
  | EmptyString => false
  | String b r => if decide (b = c) then true else contains_byte c r
  end.

(** The number of occurrences of the byte [c] in [s]. *)
Fixpoint count_byte (c : ascii) (s : string) : nat :=
  match s with
  | EmptyString => 0
  | String b r => if decide (b = c) then S (count_byte c r) else count_byte c r
  end.

End event.

(** * The RabbitMQ client

    The client is a shared object guarded by a mutex.  A method is a
    computation on the client and on the world outside it (the AMQP
    library and the broker behind it, and the clock), which also yields
    the effects the calling goroutine performs, in program order.  Calls
    into the AMQP library are answered by the world: every outcome the
    library can report is possible. *)

Module rabbitmq.

Definition error : Type := option string.

(** [time.Duration] counts nanoseconds. *)
Definition Second : Z := 1000000000.

Definition maxReconnectAttempts : nat := 5.
Definition initialBackoff : Z := 1 * Second.
Definition maxBackoff : Z := 30 * Second.

(** [amqp.Persistent]. *)
Definition Persistent : nat := 2.

(** The fields of [Client] under the mutex; a pointer is [None] when nil and
    otherwise names the connection or channel it points to. *)
Record Client : Type := mkClient {
  conn : option nat;
  channel : option nat;
  url : string;
  closed : bool
}.

Definition set_conn (p : option nat) (c : Client) : Client :=
  mkClient p (channel c) (url c) (closed c).
Definition set_channel (p : option nat) (c : Client) : Client :=
  mkClient (conn c) p (url c) (closed c).
Definition set_closed (b : bool) (c : Client) : Client :=
  mkClient (conn c) (channel c) (url c) b.

(** The world: [reply n] is the outcome of the [n]-th call into the AMQP
    library, [calls] counts the calls answered so far, [shut] holds the
    connections that report [IsClosed], [clock] is the time in nanoseconds. *)
Record World : Type := mkWorld {
  calls : nat;
  reply : nat -> error;
  shut : list nat;
  clock : Z
}.

Definition answered (w : World) : World :=
  mkWorld (S (calls w)) (reply w) (shut w) (clock w).
Definition shut_down (id : nat) (w : World) : World :=
  mkWorld (calls w) (reply w) (id :: shut w) (clock w).
Definition elapse (d : Z) (w : World) : World :=
  mkWorld (calls w) (reply w) (shut w) (clock w + d).

(** What a goroutine does, as seen from outside the client.  The last
    argument of a library call is the error it returned. *)
Inductive Effect : Type :=
| Lock
| Unlock
| CheckClosed (flag : bool)
| Sleep (d : Z)
| Spawn (watched : option nat)
| Dial (url : string) (r : error)
| OpenChannel (conn : nat) (r : error)
| CloseConnection (conn : nat) (r : error)
| CloseChannel (ch : nat) (r : error)
| ExchangeDeclare (ch : nat) (name kind : string)
    (durable autoDelete internal noWait : bool) (r : error)
| QueueDeclare (ch : nat) (name : string)
    (durable autoDelete exclusive noWait : bool) (r : error)
| PublishWithContext (ch : nat) (ctx : nat) (exchange key : string)
    (mandatory immediate : bool) (contentType body : string)
    (deliveryMode : nat) (timestamp : Z) (r : error).

(** The outcome of a computation: [value] is [None] when it panicked on a
    nil pointer. *)
Record Result (A : Type) : Type := mkResult {
  value : option A;
  client : Client;
  world : World;
  trace : list Effect
}.
Arguments mkResult {A} _ _ _ _.
Arguments value {A} _.
Arguments client {A} _.
Arguments world {A} _.
Arguments trace {A} _.

Definition M (A : Type) : Type := Client -> World -> Result A.

Definition ret {A} (a : A) : M A := fun c w => mkResult (Some a) c w [].

Definition bind {A B} (m : M A) (f : A -> M B) : M B := fun c w =>
  let r := m c w in
  match value r with
  | None => mkResult None (client r) (world r) (trace r)
  | Some a =>
      let r' := f a (client r) (world r) in
      mkResult (value r') (client r') (world r') (trace r ++ trace r')
  end.

Notation "x <- m ;; k" := (bind m (fun x => k))
  (at level 100, m at next level, right associativity).
Notation "m ;; k" := (bind m (fun _ => k))
  (at level 100, right associativity).

Definition get : M Client := fun c w => mkResult (Some c) c w [].
Definition modify (f : Client -> Client) : M unit :=
  fun c w => mkResult (Some tt) (f c) w [].
Definition emit (e : Effect) : M unit := fun c w => mkResult (Some tt) c w [e].

(** Following a pointer, as a method call on it does. *)
Definition deref (p : option nat) : M nat := fun c w =>
  match p with
  | Some id => mkResult (Some id) c w []
  | None => mkResult None c w []
  end.

(** [c.mu.Lock(); defer c.mu.Unlock()] around the rest of a method: the
    deferred unlock runs however the method ends. *)
Definition locked {A} (m : M A) : M A := fun c w =>
  let r := m c w in
  mkResult (value r) (client r) (world r) (Lock :: trace r ++ [Unlock]).

(** *** The AMQP library *)

(** A call that returns only an error. *)
Definition library_call (e : error -> Effect) : M error := fun c w =>
  let r := reply w (calls w) in
  mkResult (Some r) c (answered w) [e r].

(** [amqp.Dial]: a connection, named after the call that opened it, or an
    error; never both. *)
Definition amqp_Dial (url : string) : M (option nat * error) := fun c w =>
  let r := reply w (calls w) in
  mkResult
    (Some (match r with None => (Some (calls w), None) | Some _ => (None, r) end))
    c (answered w) [Dial url r].

(** The method [Channel] of a connection. *)
Definition Connection_Channel (id : nat) : M (option nat * error) := fun c w =>
  let r := reply w (calls w) in
  mkResult
    (Some (match r with None => (Some (calls w), None) | Some _ => (None, r) end))
    c (answered w) [OpenChannel id r].

(** The method [IsClosed] of a connection reads a flag of the connection, without any
    exchange with the broker. *)
Definition Connection_IsClosed (id : nat) : M bool := fun c w =>
  mkResult (Some (bool_decide (id ∈ shut w))) c w [].

(** The method [Close] of a connection: whatever it returns, the connection is closed
    afterwards. *)
Definition Connection_Close (id : nat) : M error := fun c w =>
  let r := reply w (calls w) in
  mkResult (Some r) c (shut_down id (answered w)) [CloseConnection id r].

Definition Channel_Close (ch : nat) : M error :=
  library_call (CloseChannel ch).

Definition Channel_ExchangeDeclare (ch : nat) (name kind : string)
    (durable autoDelete internal noWait : bool) : M error :=
  library_call (ExchangeDeclare ch name kind durable autoDelete internal noWait).

Definition Channel_QueueDeclare (ch : nat) (name : string)
    (durable autoDelete exclusive noWait : bool) : M error :=
  library_call (QueueDeclare ch name durable autoDelete exclusive noWait).

Definition Channel_PublishWithContext (ch ctx : nat) (exchange key : string)
    (mandatory immediate : bool) (contentType body : string)
    (deliveryMode : nat) (timestamp : Z) : M error :=
  library_call (PublishWithContext ch ctx exchange key mandatory immediate
                  contentType body deliveryMode timestamp).

Definition time_Now : M Z := fun c w => mkResult (Some (clock w)) c w [].

(** [fmt.Errorf(format + "%w", err)]. *)
Definition Errorf (format : string) (err : string) : error := Some (format +:+ err).

(** *** client.go *)

Definition connect : M error :=
  c <- get;;
  dialed <- amqp_Dial (url c);;
  let '(p, err) := dialed in
  modify (set_conn p);;
  match err with
  | Some e => ret (Errorf "failed to connect to RabbitMQ: " e)
  | None =>
      id <- deref p;;
      opened <- Connection_Channel id;;
      let '(ch, err) := opened in
      modify (set_channel ch);;
      match err with
      | Some e =>
          Connection_Close id;;
          ret (Errorf "failed to open channel: " e)
      | None => ret None
      end
  end.

(** [watchConnection] starts a goroutine and returns; the goroutine
    subscribes to the close notification of the connection the client
    holds.  Its body is [watcher] below. *)
Definition watchConnection : M unit :=
  c <- get;;
  emit (Spawn (conn c)).

(** The two guarded closes that open [reconnect]; their errors are
    dropped. *)
Definition release : M unit :=
  c <- get;;
  match channel c with
  | Some ch => Channel_Close ch;; ret tt
  | None => ret tt
  end;;
  match conn c with
  | Some id =>
      isClosed <- Connection_IsClosed id;;
      if isClosed then ret tt else Connection_Close id;; ret tt
  | None => ret tt
  end.

Definition reconnect : M error :=
  release;;
  connect.

Definition ensureConnection : M error :=
  locked
    (c <- get;;
     stale <- match conn c with
              | None => ret true
              | Some id =>
                  isClosed <- Connection_IsClosed id;;
                  ret (isClosed || bool_decide (channel c = None))
              end;;
     if stale : bool then reconnect else ret None).

Definition HealthCheck : M error :=
  locked
    (c <- get;;
     down <- match conn c with
             | None => ret true
             | Some id => Connection_IsClosed id
             end;;
     if down : bool then ret (Some "connection is closed")
     else
       match channel c with
       | None => ret (Some "channel is nil")
       | Some ch =>
           err <- Channel_QueueDeclare ch "" false true true false;;
           match err with
           | Some e => ret (Errorf "health check failed: " e)
           | None => ret None
           end
       end).

(** What [Close] does once the flag is set. *)
Definition close_handles : M error :=
  c <- get;;
  err <- match channel c with
         | Some ch =>
             channelErr <- Channel_Close ch;;
             match channelErr with
             | Some e => ret (Errorf "failed to close channel: " e)
             | None => ret None
             end
         | None => ret None
         end;;
  match conn c with
  | Some id =>
      connErr <- Connection_Close id;;
      match connErr with
      | Some e =>
          match err with
          | Some e0 => ret (Errorf (e0 +:+ "; failed to close connection: ") e)
          | None => ret (Errorf "failed to close connection: " e)
          end
      | None => ret err
      end
  | None => ret err
  end.

Definition Close : M error :=
  locked (modify (set_closed true);; close_handles).

(** [NewClient]: the computation starts from the zero client with the URL
    set; the client of the result is the one returned when the error is
    nil. *)
Definition NewClient (url : string) (w : World) : Result error :=
  (err <- connect;;
   match err with
   | Some e => ret (Errorf "failed to connect to RabbitMQ: " e)
   | None => watchConnection;; ret None
   end) (mkClient None None url false) w.

Section publishing.

(** [Publish] takes a message of any type and encodes it with
    [json.Marshal], which returns the encoding and an error. *)
Context {Message : Type} (json_Marshal : Message -> string * error).

Definition Publish (ctx : nat) (exchange routingKey : string) (message : Message)
    : M error :=
  err <- ensureConnection;;
  match err with
  | Some e => ret (Errorf "failed to ensure connection: " e)
  | None =>
      locked
        (c <- get;;
         ch <- deref (channel c);;
         err <- Channel_ExchangeDeclare ch exchange "topic" true false false false;;
         match err with
         | Some e => ret (Errorf "failed to declare exchange: " e)
         | None =>
             let '(body, err) := json_Marshal message in
             match err with
             | Some e => ret (Errorf "failed to marshal message: " e)
             | None =>
                 now <- time_Now;;
                 err <- Channel_PublishWithContext ch ctx exchange routingKey
                          false false "application/json" body Persistent now;;
                 match err with
                 | Some e => ret (Errorf "failed to publish message: " e)
                 | None => ret None
                 end
             end
         end)
  end.

(** *** Other goroutines

    While a goroutine sleeps without the mutex, other goroutines call the
    methods of the client and the transport may go down.  Their effects are
    their own; what the sleeping goroutine finds afterwards is the client
    and the world they leave. *)
Inductive Call : Type :=
| CallClose
| CallPublish (ctx : nat) (exchange routingKey : string) (message : Message)
| CallHealthCheck
| TransportDown (id : nat).

Definition run_call (k : Call) (c : Client) (w : World) : Client * World :=
  match k with
  | CallClose => let r := Close c w in (client r, world r)
  | CallPublish ctx exchange routingKey message =>
      let r := Publish ctx exchange routingKey message c w in (client r, world r)
  | CallHealthCheck => let r := HealthCheck c w in (client r, world r)
  | TransportDown id => (c, shut_down id w)
  end.

Definition run_calls (ks : list Call) (c : Client) (w : World) : Client * World :=
  fold_left (fun cw k => run_call k cw.1 cw.2) ks (c, w).

(** [time.Sleep(d)], during which the other goroutines make the calls
    [during]. *)
Definition sleep (d : Z) (during : list Call) : M unit := fun c w =>
  let cw := run_calls during c (elapse d w) in
  mkResult (Some tt) cw.1 cw.2 [Sleep d].

(** The backoff before attempt [attempt].  The source computes it in
    [float64]; every value involved is an integer below [2^53], on which
    that arithmetic is exact. *)
Definition backoff (attempt : nat) : Z :=
  Z.min (initialBackoff * 2 ^ Z.of_nat attempt) maxBackoff.

(** The loop of [reconnectWithBackoff] with [n] attempts left, of which the
    next is attempt [attempt]; [sched i] is what the other goroutines do
    during the sleep of attempt [i]. *)
Fixpoint attempts (sched : nat -> list Call) (n attempt : nat) : M error :=
  match n with
  | O =>
      ret (Some ("failed to reconnect after " +:+ pretty maxReconnectAttempts
                 +:+ " attempts"))
  | S n' =>
      sleep (backoff attempt) (sched attempt);;
      emit Lock;;
      c <- get;;
      emit (CheckClosed (closed c));;
      if closed c then
        emit Unlock;;
        ret (Some "client closed during reconnection")
      else
        err <- reconnect;;
        match err with
        | Some _ =>
            emit Unlock;;
            attempts sched n' (S attempt)
        | None =>
            emit Unlock;;
            watchConnection;;
            ret None
        end
  end.

Definition reconnectWithBackoff (sched : nat -> list Call) : M error :=
  attempts sched maxReconnectAttempts 0.

(** The goroutine started by [watchConnection]; [notification] is what it
    receives from the close notification: nil on a graceful close. *)
Definition watcher (notification : error) (sched : nat -> list Call) : M unit :=
  match notification with
  | None => ret tt
  | Some _ =>
      emit Lock;;
      c <- get;;
      emit (CheckClosed (closed c));;
      if closed c then
        emit Unlock;;
        ret tt
      else
        emit Unlock;;
        reconnectWithBackoff sched;;
        ret tt
  end.

End publishing.

(** *** Vocabulary for the effects of a run *)

(** The error-returning computation returned nil. *)
Definition succeeded (v : option error) : bool := bool_decide (v = Some None).

(** The connection that an error-returning computation leaves open: that of
    the client when it returned nil. *)
Definition opened {A} (r : Result A) (v : option error) : option nat :=
  if succeeded v then conn (client r) else None.

Fixpoint count (p : Effect -> bool) (t : list Effect) : nat :=
  match t with
  | [] => 0
  | e :: t' => if p e then S (count p t') else count p t'
  end.

Definition is_dial (e : Effect) : bool :=
  match e with Dial _ _ => true | _ => false end.
Definition is_teardown (e : Effect) : bool :=
  match e with CloseChannel _ _ | CloseConnection _ _ => true | _ => false end.
Definition is_channel_opened (e : Effect) : bool :=
  match e with OpenChannel _ None => true | _ => false end.

(** An exchange with the broker, or an attempt at one. *)
Definition is_network (e : Effect) : bool :=
  match e with
  | Lock | Unlock | CheckClosed _ | Sleep _ | Spawn _ => false
  | _ => true
  end.

Definition dials (t : list Effect) : nat := count is_dial t.

Fixpoint sleeps (t : list Effect) : list Z :=
  match t with
  | [] => []
  | Sleep d :: t' => d :: sleeps t'
  | _ :: t' => sleeps t'
  end.

(** For every dial of a trace, in order, the sleeps since the dial before it
    (since the start, for the first). *)
Fixpoint sleeps_before_dials (acc : list Z) (t : list Effect) : list (list Z) :=
  match t with
  | [] => []
  | Sleep d :: t' => sleeps_before_dials (acc ++ [d]) t'
  | Dial _ _ :: t' => acc :: sleeps_before_dials [] t'
  | _ :: t' => sleeps_before_dials acc t'
  end.

(** The effects of one [connect] on the URL [u], with the connection it
    leaves open with a channel, if any. *)
Inductive connect_effects (u : string) : option nat -> list Effect -> Prop :=
| connect_refused e :
    connect_effects u None [Dial u (Some e)]
| connect_no_channel id e r :
    connect_effects u None
      [Dial u None; OpenChannel id (Some e); CloseConnection id r]
| connect_done id :
    connect_effects u (Some id) [Dial u None; OpenChannel id None].

(** The effects of one [reconnect]: closes of what the client held, then one
    [connect]. *)
Inductive reconnect_effects (u : string) (opened : option nat)
  : list Effect -> Prop :=
| reconnect_intro old new :
    Forall (fun e => is_teardown e = true) old ->
    connect_effects u opened new ->
    reconnect_effects u opened (old ++ new).

Definition exhausted : error := Some "failed to reconnect after 5 attempts".
Definition closed_during_reconnection : error :=
  Some "client closed during reconnection".

(** The runs of the backoff-retry sequence from attempt [i] on: the effects
    of the goroutine and the error it returns. *)
Inductive backoff_run (u : string) : nat -> list Effect -> option error -> Prop :=
| run_exhausted :
    backoff_run u maxReconnectAttempts [] (Some exhausted)
| run_closed i :
    i < maxReconnectAttempts ->
    backoff_run u i [Sleep (backoff i); Lock; CheckClosed true; Unlock]
      (Some closed_during_reconnection)
| run_failed i body rest v :
    i < maxReconnectAttempts ->
    reconnect_effects u None body ->
    backoff_run u (S i) rest v ->
    backoff_run u i
      ([Sleep (backoff i); Lock; CheckClosed false] ++ body ++ [Unlock] ++ rest) v
| run_connected i body id :
    i < maxReconnectAttempts ->
    reconnect_effects u (Some id) body ->
    backoff_run u i
      ([Sleep (backoff i); Lock; CheckClosed false] ++ body
       ++ [Unlock; Spawn (Some id)])
      (Some None).

(** What [Close] reports for the errors of the two closes. *)
Definition close_report (channelErr connErr : error) : error :=
  match channelErr, connErr with
  | None, None => None
  | Some e1, None => Some ("failed to close channel: " +:+ e1)
  | None, Some e2 => Some ("failed to close connection: " +:+ e2)
  | Some e1, Some e2 =>
      Some ("failed to close channel: " +:+ e1
            +:+ "; failed to close connection: " +:+ e2)
  end.

(** The connection is absent or reports itself closed. *)
Definition down (c : Client) (w : World) : bool :=
  match conn c with
  | None => true
  | Some id => bool_decide (id ∈ shut w)
  end.

(** [ensureConnection] reconnects: the connection is absent or closed, or
    the channel is absent. *)
Definition stale (c : Client) (w : World) : bool :=
  down c w || bool_decide (channel c = None).

(** What [Publish] does on channel [ch] once the connection is ensured,
    with the error it returns. *)
Inductive publish_effects (ch ctx : nat) (exchange routingKey : string)
  : list Effect -> option error -> Prop :=
| publish_declare_failed e :
    publish_effects ch ctx exchange routingKey
      [Lock; ExchangeDeclare ch exchange "topic" true false false false (Some e);
       Unlock]
      (Some (Some ("failed to declare exchange: " +:+ e)))
| publish_marshal_failed e :
    publish_effects ch ctx exchange routingKey
      [Lock; ExchangeDeclare ch exchange "topic" true false false false None;
       Unlock]
      (Some (Some ("failed to marshal message: " +:+ e)))
| publish_send_failed body now e :
    publish_effects ch ctx exchange routingKey
      [Lock; ExchangeDeclare ch exchange "topic" true false false false None;
       PublishWithContext ch ctx exchange routingKey false false
         "application/json" body Persistent now (Some e);
       Unlock]
      (Some (Some ("failed to publish message: " +:+ e)))
| publish_sent body now :
    publish_effects ch ctx exchange routingKey
      [Lock; ExchangeDeclare ch exchange "topic" true false false false None;
       PublishWithContext ch ctx exchange routingKey false false
         "application/json" body Persistent now None;
       Unlock]
      (Some None).

(** *** Sample worlds *)

(** A broker that accepts every call. *)
Definition willing : World := mkWorld 0 (fun _ => None) [] 0.

(** A broker that accepts every call, with a library that refuses to close
    a connection a second time. *)
Definition close_once : World :=
  mkWorld 0
    (fun n => if decide (n = 5) then Some "channel/connection is not open" else None)
    [] 0.

(** A broker that refuses every call. *)
Definition unreachable : World := mkWorld 0 (fun _ => Some "connection refused") [] 0.

(** An encoder for messages without content. *)
Definition marshal_unit (message : unit) : string * error := ("{}", None).

End rabbitmq.

(** * Properties of the event model *)

Section event_properties.
Import event.

Lemma SplitSeq_nonempty s sep : SplitSeq s sep <> [].
Proof.
  induction s as [|c r IH]; simpl; [done|].
  case_decide; [done|].
  destruct (SplitSeq r sep); done.
Qed.

(** Joining the tokens with the separator gives the input back. *)
Lemma Join_SplitSeq s sep : Join (SplitSeq s sep) sep = s.
Proof.
  induction s as [|c r IH]; simpl; [done|].
  case_decide as Hc.
  - subst c. pose proof (SplitSeq_nonempty r sep) as Hne.
    destruct (SplitSeq r sep) as [|t ts] eqn:E; [done|].
    simpl in *. by rewrite IH.
  - pose proof (SplitSeq_nonempty r sep) as Hne.
    destruct (SplitSeq r sep) as [|t ts] eqn:E; [done|].
    destruct ts as [|t' ts]; simpl in *; by rewrite <- IH.
Qed.

(** No token contains the separator. *)
Lemma SplitSeq_no_sep s sep :
  Forall (fun t => contains_byte sep t = false) (SplitSeq s sep).
Proof.
  induction s as [|c r IH]; simpl.
  - by constructor.
  - case_decide as Hc.
    + by constructor.
    + destruct (SplitSeq r sep) as [|t ts].
      * constructor; [|done]. simpl. by rewrite decide_False.
      * inversion IH; subst. constructor; [|done].
        simpl. by rewrite decide_False.
Qed.

(** *** Reversal and concatenation of strings *)

Lemma app_cons a s t : String a s +:+ t = String a (s +:+ t).
Proof. reflexivity. Qed.

Lemma app_empty_r s : s +:+ "" = s.
Proof. induction s as [|a s IH]; [done|]. by rewrite app_cons, IH. Qed.

Lemma string_app_assoc s t u : (s +:+ t) +:+ u = s +:+ (t +:+ u).
Proof. induction s as [|a s IH]; [done|]. by rewrite !app_cons, IH. Qed.

Lemma string_length_app s t : String.length (s +:+ t) = String.length s + String.length t.
Proof. induction s as [|a s IH]; [done|]. rewrite app_cons. simpl. by rewrite IH. Qed.

Lemma rev_app_spec s t : String.rev_app s t = String.rev s +:+ t.
Proof.
  revert t. induction s as [|a s IH]; intros t; [done|].
  unfold String.rev. simpl. rewrite (IH (String a t)), (IH (String a "")).
  by rewrite string_app_assoc.
Qed.

Lemma rev_app_twice s t u :
  String.rev_app (String.rev_app s t) u = String.rev_app t (s +:+ u).
Proof.
  revert t. induction s as [|a s IH]; intros t; [done|].
  simpl. by rewrite IH.
Qed.

Lemma string_rev_involutive s : String.rev (String.rev s) = s.
Proof. unfold String.rev. rewrite rev_app_twice. simpl. apply app_empty_r. Qed.

Lemma string_rev_app_distr s t : String.rev (s +:+ t) = String.rev t +:+ String.rev s.
Proof.
  induction s as [|a s IH].
  - change ("" +:+ t) with t. by rewrite app_empty_r.
  - rewrite app_cons. unfold String.rev at 1 3. simpl.
    rewrite !rev_app_spec, IH. by rewrite string_app_assoc.
Qed.

Lemma string_length_rev s : String.length (String.rev s) = String.length s.
Proof.
  induction s as [|a s IH]; [done|].
  unfold String.rev. simpl. rewrite rev_app_spec, string_length_app, IH. simpl. lia.
Qed.

(** *** Trimming *)

Lemma strip_app p s rest : strip p s = Some rest -> s = p +:+ rest.
Proof.
  revert s. induction p as [|a p IH]; intros [|b s] H; simpl in H; simplify_eq; [done..|].
  case_decide; [|done]. subst b. rewrite app_cons. f_equal. by apply IH.
Qed.

Lemma strip_extend p s t rest :
  strip p s = Some rest -> strip p (s +:+ t) = Some (rest +:+ t).
Proof.
  revert s. induction p as [|a p IH]; intros [|b s] H; simpl in H; simplify_eq; [done..|].
  rewrite app_cons. simpl. case_decide; [|done]. by apply IH.
Qed.

Lemma strip_rune_extend runes s t :
  is_Some (strip_rune runes s) -> is_Some (strip_rune runes (s +:+ t)).
Proof.
  induction runes as [|r runes IH]; simpl; intros [x Hx]; [done|].
  destruct (strip r s) as [rest|] eqn:E.
  - by rewrite (strip_extend _ _ t _ E).
  - destruct (strip r (s +:+ t)); [done|]. apply IH. by exists x.
Qed.

Lemma strip_rune_shorter runes s rest :
  Forall (fun r => r <> "") runes ->
  strip_rune runes s = Some rest -> String.length rest < String.length s.
Proof.
  induction 1 as [|r runes Hr _ IH]; simpl; [done|].
  destruct (strip r s) as [rest'|] eqn:E; [|done].
  intros [= ->]. apply strip_app in E. subst s. rewrite string_length_app.
  destruct r; [done|]. simpl. lia.
Qed.

(** With a bound of at least the length of the string, trimming runs to the
    end: no rune of [runes] leads the result. *)
Lemma trim_left_done runes n s :
  Forall (fun r => r <> "") runes ->
  String.length s <= n -> strip_rune runes (trim_left n runes s) = None.
Proof.
  intros Hr. revert s. induction n as [|n IH]; intros s Hn; simpl.
  - destruct (strip_rune runes s) as [rest|] eqn:E; [|done].
    apply strip_rune_shorter in E; [lia|done].
  - destruct (strip_rune runes s) as [rest|] eqn:E; [|done].
    apply IH. apply strip_rune_shorter in E; [lia|done].
Qed.

(** The result of trimming is what is left of the string after a prefix. *)
Lemma trim_left_suffix runes n s : exists z, s = z +:+ trim_left n runes s.
Proof.
  revert s. induction n as [|n IH]; intros s; simpl.
  - by exists "".
  - destruct (strip_rune runes s) as [rest|] eqn:E; [|by exists ""].
    destruct (IH rest) as [z Hz].
    assert (exists r, s = r +:+ rest) as [r ->].
    { clear -E. induction runes as [|r runes IHr]; simpl in E; [done|].
      destruct (strip r s) as [rest'|] eqn:E'; [|by apply IHr].
      simplify_eq. exists r. by apply strip_app. }
    exists (r +:+ z). by rewrite string_app_assoc, <- Hz.
Qed.

Lemma white_space_nonempty : Forall (fun r => r <> "") white_space.
Proof. repeat constructor; done. Qed.

Lemma white_space_rev_nonempty :
  Forall (fun r => r <> "") (map String.rev white_space).
Proof. repeat constructor; done. Qed.

(** [TrimSpace s] starts with no white-space rune. *)
Lemma TrimSpace_no_leading s : strip_rune white_space (TrimSpace s) = None.
Proof.
  unfold TrimSpace, TrimRightSpace.
  set (t := TrimLeftSpace s).
  assert (strip_rune white_space t = None) as Ht.
  { apply trim_left_done; [apply white_space_nonempty|done]. }
  destruct (trim_left_suffix (map String.rev white_space) (String.length t)
              (String.rev t)) as [z Hz].
  set (y := trim_left _ _ _) in *.
  assert (t = String.rev y +:+ String.rev z) as Ht'.
  { by rewrite <- string_rev_app_distr, <- Hz, string_rev_involutive. }
  destruct (strip_rune white_space (String.rev y)) as [r|] eqn:E; [|done].
  destruct (strip_rune_extend white_space (String.rev y) (String.rev z)) as [x Hx];
    [by exists r|].
  rewrite <- Ht' in Hx. congruence.
Qed.

(** [TrimSpace s] ends with no white-space rune. *)
Lemma TrimSpace_no_trailing s :
  strip_rune (map String.rev white_space) (String.rev (TrimSpace s)) = None.
Proof.
  unfold TrimSpace, TrimRightSpace. rewrite string_rev_involutive.
  apply trim_left_done; [apply white_space_rev_nonempty|].
  by rewrite string_length_rev.
Qed.

(** *** ParseContainerNames *)

Lemma collect_names_spec l tokens :
  collect_names (mk_slice l) tokens
  = mk_slice (l ++ filter (fun t => t <> "") (TrimSpace <$> tokens)).
Proof.
  revert l. induction tokens as [|t tokens IH]; intros l.
  - simpl. by rewrite app_nil_r.
  - rewrite fmap_cons, filter_cons.
    change (collect_names (mk_slice l) (t :: tokens))
      with (collect_names
              (if decide (TrimSpace t = "") then mk_slice l
               else append (mk_slice l) (TrimSpace t)) tokens).
    destruct (decide (TrimSpace t = "")) as [Ht|Ht].
    + rewrite decide_False by (by intros ?). apply IH.
    + rewrite decide_True by done. unfold append. simpl elements.
      rewrite IH. by rewrite <- app_assoc.
Qed.

Example ParseContainerNames_whitespace :
  ParseContainerNames " nginx , api , worker " = mk_slice ["nginx"; "api"; "worker"].
Proof. vm_compute. reflexivity. Qed.

Example ParseContainerNames_nbsp :
  ParseContainerNames (utf8 [194; 160; 97; 226; 128; 137; 44; 9; 98]) = mk_slice ["a"; "b"].
Proof. vm_compute. reflexivity. Qed.

(** C8. For every input string, [ParseContainerNames] returns the tokens
    between the commas, from left to right, each with its surrounding white
    space trimmed, without the tokens that are empty after trimming.  The
    result holds no empty string, no element starts or ends with a
    white-space rune, the result is an allocated slice and never the nil
    one, ["a, ,b,"] gives [["a"; "b"]] and the empty string gives the empty
    slice. *)
Theorem ParseContainerNames_tokens (s : string) :
  ParseContainerNames s
    = mk_slice (filter (fun t => t <> "") (TrimSpace <$> SplitSeq s ","))
  /\ ("" ∉ elements (ParseContainerNames s))
  /\ Forall (fun t => strip_rune white_space t = None
                    /\ strip_rune (map String.rev white_space) (String.rev t) = None)
       (elements (ParseContainerNames s))
  /\ ParseContainerNames s <> nil_slice
  /\ ParseContainerNames "a, ,b," = mk_slice ["a"; "b"]
  /\ ParseContainerNames "" = mk_slice [].
Proof.
  assert (ParseContainerNames s
          = mk_slice (filter (fun t => t <> "") (TrimSpace <$> SplitSeq s ","))) as Heq.
  { unfold ParseContainerNames. case_decide as Hs.
    - subst s. vm_compute. reflexivity.
    - by rewrite collect_names_spec. }
  split; [exact Heq|]. rewrite Heq. simpl elements.
  split; [|split; [|split; [done|split; vm_compute; reflexivity]]].
  - intros [Hne _]%list_elem_of_filter. by apply Hne.
  - apply Forall_forall. intros t [_ Ht]%list_elem_of_filter.
    apply list_elem_of_fmap in Ht as [tok [-> _]].
    split; [apply TrimSpace_no_leading | apply TrimSpace_no_trailing].
Qed.

(** *** ExchangeAndRoutingKey *)

(** C9. For every annotation map, the nil one included, both results of
    [ExchangeAndRoutingKey] are non-empty; the exchange is the value of the
    annotation [cert-webhook.golder.tech/rabbitmq-exchange] when the key is
    present with a non-empty value and ["certificate-events"] otherwise, and
    the routing key is, independently, the value of
    [cert-webhook.golder.tech/rabbitmq-routing-key] when present and
    non-empty and ["certificate.renewed"] otherwise. *)
Theorem ExchangeAndRoutingKey_defaults (annotations : GoMap) :
  let resolve (key fallback : string) :=
    match lookup_ok annotations key with
    | Some v => if decide (v = "") then fallback else v
    | None => fallback
    end in
  (ExchangeAndRoutingKey annotations).1 <> ""
  /\ (ExchangeAndRoutingKey annotations).2 <> ""
  /\ (ExchangeAndRoutingKey annotations).1
     = resolve "cert-webhook.golder.tech/rabbitmq-exchange" "certificate-events"
  /\ (ExchangeAndRoutingKey annotations).2
     = resolve "cert-webhook.golder.tech/rabbitmq-routing-key" "certificate.renewed".
Proof.
  intros resolve.
  assert (forall key fallback,
            (if decide (index annotations key = "") then fallback
             else index annotations key) = resolve key fallback) as Hres.
  { intros key fallback. unfold resolve, index, lookup_ok.
    destruct annotations as [|m]; [done|].
    destruct (m !! key) as [v|]; simpl; [|done].
    by destruct (decide (v = "")). }
  unfold ExchangeAndRoutingKey. simpl.
  change (AnnotationPrefix +:+ "rabbitmq-exchange")
    with "cert-webhook.golder.tech/rabbitmq-exchange".
  change (AnnotationPrefix +:+ "rabbitmq-routing-key")
    with "cert-webhook.golder.tech/rabbitmq-routing-key".
  split; [|split; [|split; apply Hres]].
  - case_decide; [done|done].
  - case_decide; [done|done].
Qed.

(** *** NewMessage *)

(** C2. With nil labels and nil annotations [NewMessage] returns a message
    whose [TargetType], [DockerEngine] and [DockerComposePath] are empty,
    whose container names are the empty allocated slice and whose
    [annotations] metadata is the empty allocated map; its [labels] metadata
    however is the nil map it was given, not an empty allocated one. *)
Theorem NewMessage_nil_labels_stay_nil (name namespace secretName : string) (now : Z) :
  let msg := NewMessage name namespace secretName nil_map nil_map now in
  Metadata msg !! "labels" = Some nil_map
  /\ Metadata msg !! "labels" <> Some (mk_map ∅)
  /\ Metadata msg !! "annotations" = Some (mk_map ∅)
  /\ TargetType msg = ""
  /\ DockerEngine msg = ""
  /\ DockerComposePath msg = ""
  /\ ContainerNames msg = mk_slice [].
Proof.
  simpl. repeat split; try done.
Qed.

(** The guard of [NewMessage] on the annotations does for them what is not
    done for the labels: a nil annotation map is stored as an empty one. *)
Lemma NewMessage_annotations_allocated name namespace secretName labels annotations now :
  Metadata (NewMessage name namespace secretName labels annotations now) !! "annotations"
  <> Some nil_map.
Proof.
  unfold NewMessage. simpl.
  rewrite lookup_insert_ne by done. rewrite lookup_insert_eq.
  by destruct annotations.
Qed.

Example NewMessage_scenario :
  let annotations :=
    mk_map (<["cert-webhook.golder.tech/docker-engine" := "host1"]>
              (<["cert-webhook.golder.tech/container-names" := "nginx, api,"]> ∅)) in
  let labels := mk_map (<["cert-webhook.golder.tech/enabled" := "true"]> ∅) in
  let msg := NewMessage "test-cert" "default" "test-cert-tls" labels annotations 0 in
  DockerEngine msg = "host1"
  /\ ContainerNames msg = mk_slice ["nginx"; "api"]
  /\ TargetType msg = ""
  /\ Metadata msg !! "labels" = Some labels.
Proof. vm_compute. done. Qed.

Example ExchangeAndRoutingKey_empty :
  ExchangeAndRoutingKey (mk_map ∅) = ("certificate-events", "certificate.renewed")
  /\ ExchangeAndRoutingKey nil_map = ("certificate-events", "certificate.renewed").
Proof. vm_compute. done. Qed.

Example ExchangeAndRoutingKey_override :
  ExchangeAndRoutingKey
    (mk_map (<["cert-webhook.golder.tech/rabbitmq-exchange" := "custom"]> ∅))
  = ("custom", "certificate.renewed").
Proof. vm_compute. done. Qed.

End event_properties.

(** * Properties of the RabbitMQ client *)

Section client_properties.
Import rabbitmq.

Ltac run :=
  unfold locked, library_call, bind, ret, get, modify, emit, deref; simpl.

(** *** Sequencing *)

Lemma bind_run {A B} (m : M A) (f : A -> M B) c w a :
  value (m c w) = Some a ->
  bind m f c w
  = mkResult (value (f a (client (m c w)) (world (m c w))))
             (client (f a (client (m c w)) (world (m c w))))
             (world (f a (client (m c w)) (world (m c w))))
             (trace (m c w) ++ trace (f a (client (m c w)) (world (m c w)))).
Proof. intros H. unfold bind. by rewrite H. Qed.

Lemma count_app p t1 t2 : count p (t1 ++ t2) = count p t1 + count p t2.
Proof.
  induction t1 as [|e t1 IH]; simpl; [done|].
  destruct (p e); simpl; lia.
Qed.

Lemma count_le p q t :
  (forall e, p e = true -> q e = true) -> count p t <= count q t.
Proof.
  intros Hpq. induction t as [|e t IH]; simpl; [done|].
  destruct (p e) eqn:Hp; [rewrite (Hpq e Hp); lia|].
  destruct (q e); lia.
Qed.

Lemma sleeps_app t1 t2 : sleeps (t1 ++ t2) = sleeps t1 ++ sleeps t2.
Proof.
  induction t1 as [|e t1 IH]; simpl; [done|].
  destruct e; simpl; by rewrite ?IH.
Qed.

(** *** connect and reconnect *)

Lemma connect_run c w :
  let r := connect c w in
  connect_effects (url c) (opened r (value r)) (trace r)
  /\ is_Some (value r)
  /\ url (client r) = url c /\ closed (client r) = closed c
  /\ (value r = Some None ->
      is_Some (conn (client r)) /\ is_Some (channel (client r))).
Proof.
  unfold connect, amqp_Dial, Connection_Channel, Connection_Close, opened. run.
  destruct (reply w (calls w)) as [e|]; simpl.
  - split; [constructor|]. repeat split; eauto; done.
  - destruct (reply w (S (calls w))) as [e|]; simpl.
    + split; [constructor|]. repeat split; eauto; done.
    + split; [constructor|]. repeat split; eauto.
Qed.

Lemma release_run c w :
  let r := release c w in
  value r = Some tt /\ client r = c
  /\ Forall (fun e => is_teardown e = true) (trace r).
Proof.
  unfold release, Channel_Close, Connection_IsClosed, Connection_Close. run.
  destruct c as [[id|] [ch|] u b]; simpl; repeat case_match; simpl;
    repeat split; repeat constructor.
Qed.

Lemma reconnect_run c w :
  let r := reconnect c w in
  reconnect_effects (url c) (opened r (value r)) (trace r)
  /\ is_Some (value r)
  /\ url (client r) = url c /\ closed (client r) = closed c
  /\ (value r = Some None ->
      is_Some (conn (client r)) /\ is_Some (channel (client r))).
Proof.
  destruct (release_run c w) as (Hv & Hc & Ht).
  unfold reconnect. rewrite (bind_run _ _ _ _ _ Hv).
  cbv zeta. unfold opened. cbn [value client world trace]. rewrite Hc.
  destruct (connect_run c (world (release c w))) as (He & Hrest).
  split; [by constructor|done].
Qed.

Lemma teardown_count p t :
  (forall e, is_teardown e = true -> p e = false) ->
  Forall (fun e => is_teardown e = true) t -> count p t = 0.
Proof.
  intros Hp. induction 1 as [|e t He _ IH]; simpl; [done|].
  by rewrite (Hp e He).
Qed.

Lemma reconnect_effects_dials u o t : reconnect_effects u o t -> dials t = 1.
Proof.
  destruct 1 as [old new Hold Hnew]. unfold dials. rewrite count_app.
  rewrite (teardown_count is_dial old); [|by intros []|done].
  by destruct Hnew.
Qed.

Lemma teardown_sleeps t :
  Forall (fun e => is_teardown e = true) t -> sleeps t = [].
Proof. induction 1 as [|[] t He _ IH]; simpl; done. Qed.

Lemma reconnect_effects_sleeps u o t : reconnect_effects u o t -> sleeps t = [].
Proof.
  destruct 1 as [old new Hold Hnew]. rewrite sleeps_app, (teardown_sleeps old Hold).
  by destruct Hnew.
Qed.

(** A reconnect that fails opens no channel; one that succeeds ends with the
    dial and the opening of the channel. *)
Lemma reconnect_effects_failed u t :
  reconnect_effects u None t -> count is_channel_opened t = 0.
Proof.
  destruct 1 as [old new Hold Hnew]. rewrite count_app.
  rewrite (teardown_count is_channel_opened old); [|by intros []|done].
  by inversion Hnew.
Qed.

Lemma reconnect_effects_ok u id t :
  reconnect_effects u (Some id) t ->
  exists old, t = old ++ [Dial u None; OpenChannel id None]
              /\ count is_channel_opened old = 0.
Proof.
  destruct 1 as [old new Hold Hnew]. inversion Hnew; subst.
  exists old. split; [done|].
  apply teardown_count; [by intros []|done].
Qed.

(** Between the dial of a reconnect and what comes before it there is no
    sleep, and nothing after it sleeps or dials. *)
Lemma reconnect_effects_pacing u o t acc rest :
  reconnect_effects u o t ->
  sleeps_before_dials acc (t ++ rest) = acc :: sleeps_before_dials [] rest.
Proof.
  destruct 1 as [old new Hold Hnew]. rewrite <- app_assoc.
  induction Hold as [|[] old He _ IH]; simpl in *; try done.
  by destruct Hnew.
Qed.

(** *** ensureConnection *)

Lemma ensureConnection_run c w :
  ensureConnection c w
  = if stale c w then locked reconnect c w
    else mkResult (Some None) c w [Lock; Unlock].
Proof.
  unfold ensureConnection, stale, down, Connection_IsClosed. run.
  destruct (conn c) as [id|]; simpl; [|done].
  by destruct (bool_decide (id ∈ shut w)), (bool_decide (channel c = None)).
Qed.

(** *** HealthCheck *)

Lemma HealthCheck_run c w :
  HealthCheck c w
  = if down c w then mkResult (Some (Some "connection is closed")) c w [Lock; Unlock]
    else match channel c with
         | None => mkResult (Some (Some "channel is nil")) c w [Lock; Unlock]
         | Some ch =>
             let e := reply w (calls w) in
             mkResult
               (Some (match e with
                      | Some m => Some ("health check failed: " +:+ m)
                      | None => None
                      end))
               c (answered w)
               [Lock; QueueDeclare ch "" false true true false e; Unlock]
         end.
Proof.
  unfold HealthCheck, down, Connection_IsClosed, Channel_QueueDeclare. run.
  destruct (conn c) as [id|]; simpl; [|done].
  destruct (bool_decide (id ∈ shut w)); simpl; [done|].
  destruct (channel c) as [ch|]; simpl; [|done].
  by destruct (reply w (calls w)).
Qed.

(** *** Close *)

Lemma close_handles_run c w :
  let e1 := match channel c with Some _ => reply w (calls w) | None => None end in
  let w1 := match channel c with Some _ => answered w | None => w end in
  let e2 := match conn c with Some _ => reply w1 (calls w1) | None => None end in
  let w2 := match conn c with Some id => shut_down id (answered w1) | None => w1 end in
  close_handles c w
  = mkResult (Some (close_report e1 e2)) c w2
      (match channel c with Some ch => [CloseChannel ch e1] | None => [] end
       ++ match conn c with Some id => [CloseConnection id e2] | None => [] end).
Proof.
  unfold close_handles, Channel_Close, Connection_Close, close_report, Errorf. run.
  destruct (channel c) as [ch|], (conn c) as [id|]; simpl; try done.
  - destruct (reply w (calls w)) as [e1|]; simpl;
      destruct (reply w (S (calls w))) as [e2|]; simpl; try done.
    by rewrite string_app_assoc.
  - by destruct (reply w (calls w)).
  - by destruct (reply w (calls w)).
Qed.

Lemma Close_run c w :
  Close c w = locked close_handles (set_closed true c) w.
Proof. reflexivity. Qed.

(** *** Publish *)

Section publish_properties.
Context {Message : Type} (json_Marshal : Message -> string * error).

Lemma ensureConnection_effects c w :
  let r := ensureConnection c w in
  is_Some (value r)
  /\ url (client r) = url c /\ closed (client r) = closed c
  /\ (value r = Some None -> is_Some (channel (client r)))
  /\ (trace r = [Lock; Unlock] /\ value r = Some None /\ client r = c /\ world r = w
      \/ exists body, trace r = Lock :: body ++ [Unlock]
                      /\ reconnect_effects (url c) (opened r (value r)) body).
Proof.
  rewrite ensureConnection_run. unfold stale.
  destruct (down c w) eqn:Hd; simpl.
  - destruct (reconnect_run c w) as (He & Hs & Hu & Hc & Hok).
    unfold locked. simpl. repeat split; try done.
    + intros H. by apply Hok.
    + right. by eexists.
  - case_bool_decide as Hch; simpl.
    + destruct (reconnect_run c w) as (He & Hs & Hu & Hc & Hok).
      unfold locked. simpl. repeat split; try done.
      * intros H. by apply Hok.
      * right. by eexists.
    + repeat split; eauto.
      intros _. by destruct (channel c).
Qed.

Lemma Publish_run ctx exchange routingKey message c w :
  let e := ensureConnection c w in
  let r := Publish json_Marshal ctx exchange routingKey message c w in
  match value e with
  | Some (Some err) =>
      r = mkResult (Some (Some ("failed to ensure connection: " +:+ err)))
            (client e) (world e) (trace e)
  | Some None =>
      exists ch rest,
        channel (client e) = Some ch
        /\ trace r = trace e ++ rest
        /\ publish_effects ch ctx exchange routingKey rest (value r)
        /\ client r = client e
  | None => False
  end.
Proof.
  destruct (ensureConnection_effects c w) as ([v Hv] & _ & _ & Hch & _).
  cbv zeta. unfold Publish. rewrite (bind_run _ _ _ _ _ Hv).
  destruct (ensureConnection c w) as [v' c' w' t']. simpl in Hv, Hch. subst v'.
  cbn [value client world trace].
  destruct v as [err|]; [by rewrite app_nil_r|].
  destruct (Hch eq_refl) as [ch Hc].
  exists ch. eexists. split; [done|].
  split; [reflexivity|].
  unfold Channel_ExchangeDeclare, Channel_PublishWithContext, time_Now. run.
  rewrite Hc. simpl.
  destruct (reply w' (calls w')) as [e1|]; simpl; [split; [constructor|done]|].
  destruct (json_Marshal message) as [body [e2|]]; simpl; [split; [constructor|done]|].
  destruct (reply w' (S (calls w'))) as [e3|]; simpl; (split; [constructor|done]).
Qed.

(** *** What the methods leave of the URL and of the flag *)

Lemma Close_client c w : client (Close c w) = set_closed true c.
Proof.
  rewrite Close_run. unfold locked. cbn [client].
  pose proof (close_handles_run (set_closed true c) w) as H.
  cbv zeta in H. by rewrite H.
Qed.

Lemma HealthCheck_client c w : client (HealthCheck c w) = c.
Proof.
  rewrite HealthCheck_run.
  destruct (down c w); [done|]. by destruct (channel c).
Qed.

Lemma Publish_keeps ctx exchange routingKey message c w :
  let r := Publish json_Marshal ctx exchange routingKey message c w in
  url (client r) = url c /\ closed (client r) = closed c.
Proof.
  pose proof (Publish_run ctx exchange routingKey message c w) as H.
  destruct (ensureConnection_effects c w) as (_ & Hu & Hc & _).
  cbv zeta in *.
  destruct (value (ensureConnection c w)) as [[err|]|]; [| |done].
  - by rewrite H.
  - destruct H as (ch & rest & _ & _ & _ & ->). done.
Qed.

Lemma run_call_frame (k : Call) c w :
  url (run_call json_Marshal k c w).1 = url c
  /\ (closed c = true -> closed (run_call json_Marshal k c w).1 = true).
Proof.
  destruct k as [|ctx exchange routingKey message| |id];
    unfold run_call; cbv zeta; cbn [fst snd].
  - by rewrite Close_client.
  - destruct (Publish_keeps ctx exchange routingKey message c w) as [-> ->]. done.
  - by rewrite HealthCheck_client.
  - done.
Qed.

Lemma run_calls_cons (k : Call) ks c w :
  run_calls json_Marshal (k :: ks) c w
  = run_calls json_Marshal ks (run_call json_Marshal k c w).1
      (run_call json_Marshal k c w).2.
Proof. unfold run_calls. cbn [fold_left fst snd]. by destruct (run_call _ _ _ _). Qed.

Lemma run_calls_frame (ks : list Call) c w :
  url (run_calls json_Marshal ks c w).1 = url c
  /\ (closed c = true -> closed (run_calls json_Marshal ks c w).1 = true).
Proof.
  revert c w. induction ks as [|k ks IH]; intros c w; [done|].
  rewrite run_calls_cons. destruct (run_call_frame k c w) as [Hu Hc].
  destruct (IH (run_call json_Marshal k c w).1 (run_call json_Marshal k c w).2)
    as [Hu' Hc'].
  split; [congruence|auto].
Qed.

(** Once another goroutine has called [Close], the flag is set, whatever is
    called after it. *)
Lemma run_calls_closed (ks : list Call) c w :
  CallClose ∈ ks -> closed (run_calls json_Marshal ks c w).1 = true.
Proof.
  revert c w. induction ks as [|k ks IH]; intros c w Hin.
  - by apply elem_of_nil in Hin.
  - rewrite run_calls_cons. apply elem_of_cons in Hin as [<-|Hin].
    + apply (run_calls_frame ks). unfold run_call. cbv zeta. cbn [fst].
      by rewrite Close_client.
    + by apply IH.
Qed.

(** *** The backoff-retry sequence *)

(** One turn of the loop. *)
Lemma attempts_step sched n i c w :
  attempts json_Marshal sched (S n) i c w
  = let cw := run_calls json_Marshal (sched i) c (elapse (backoff i) w) in
    if closed cw.1 then
      mkResult (Some closed_during_reconnection) cw.1 cw.2
        [Sleep (backoff i); Lock; CheckClosed true; Unlock]
    else
      let r := reconnect cw.1 cw.2 in
      match value r with
      | None =>
          mkResult None (client r) (world r)
            ([Sleep (backoff i); Lock; CheckClosed false] ++ trace r)
      | Some (Some _) =>
          let r' := attempts json_Marshal sched n (S i) (client r) (world r) in
          mkResult (value r') (client r') (world r')
            ([Sleep (backoff i); Lock; CheckClosed false] ++ trace r
             ++ [Unlock] ++ trace r')
      | Some None =>
          mkResult (Some None) (client r) (world r)
            ([Sleep (backoff i); Lock; CheckClosed false] ++ trace r
             ++ [Unlock; Spawn (conn (client r))])
      end.
Proof.
  cbn [attempts]. unfold sleep, watchConnection, bind, emit, get, ret.
  cbv zeta. cbn [value client world trace fst snd].
  destruct (run_calls json_Marshal (sched i) c (elapse (backoff i) w)) as [c' w'].
  cbn [fst snd app]. destruct (closed c') eqn:Hc; cbn [value client world trace app]; [done|].
  destruct (reconnect c' w') as [[[e|]|] c'' w'' t''];
    cbn [value client world trace app]; [| |done].
  - destruct (attempts json_Marshal sched n (S i) c'' w'') as [[v|] c3 w3 t3];
      cbn [value client world trace app]; by rewrite <- ?app_assoc.
  - by rewrite <- ?app_assoc.
Qed.

Lemma attempts_run sched n i c w :
  i + n = maxReconnectAttempts ->
  let r := attempts json_Marshal sched n i c w in
  backoff_run (url c) i (trace r) (value r).
Proof.
  revert i c w. induction n as [|n IH]; intros i c w Hi; cbv zeta.
  - replace i with maxReconnectAttempts by lia. apply run_exhausted.
  - rewrite attempts_step. cbv zeta.
    destruct (run_calls_frame (sched i) c (elapse (backoff i) w)) as [Hu _].
    destruct (run_calls json_Marshal (sched i) c (elapse (backoff i) w)) as [c' w'].
    cbn [fst snd] in *. rewrite <- Hu.
    destruct (closed c'); [apply run_closed; lia|].
    destruct (reconnect_run c' w') as (He & [v Hv] & Hu' & _ & Hok).
    rewrite Hv in *. unfold opened, succeeded in He.
    destruct v as [e|]; cbn [value client world trace].
    + rewrite bool_decide_eq_false_2 in He by done.
      apply run_failed; [lia|done|].
      rewrite <- Hu'. apply IH. lia.
    + rewrite bool_decide_eq_true_2 in He by done.
      destruct (Hok eq_refl) as [[id Hid] _]. rewrite Hid in *.
      rewrite app_assoc. apply (run_connected _ i _ id); [lia|done].
Qed.

End publish_properties.

(** *** What every run of the sequence satisfies *)

Lemma backoff_run_returns u i t v : backoff_run u i t v -> is_Some v.
Proof. induction 1; eauto. Qed.

Lemma backoff_run_dials u i t v :
  backoff_run u i t v -> dials t + i <= maxReconnectAttempts.
Proof.
  induction 1 as [|i Hi|i body rest v Hi Hbody _ IH|i body id Hi Hbody].
  - simpl. lia.
  - simpl. lia.
  - unfold dials in *. rewrite !count_app. simpl.
    apply reconnect_effects_dials in Hbody. unfold dials in Hbody. lia.
  - unfold dials in *. rewrite !count_app. simpl.
    apply reconnect_effects_dials in Hbody. unfold dials in Hbody. lia.
Qed.

Lemma backoff_run_sleeps u i t v :
  backoff_run u i t v ->
  exists k, i + k <= maxReconnectAttempts /\ sleeps t = backoff <$> seq i k.
Proof.
  induction 1 as [|i Hi|i body rest v Hi Hbody _ IH|i body id Hi Hbody].
  - exists 0. split; [lia|done].
  - exists 1. split; [lia|done].
  - destruct IH as (k & Hk & IH). exists (S k). split; [lia|].
    rewrite !sleeps_app, (reconnect_effects_sleeps _ _ _ Hbody), IH. done.
  - exists 1. split; [lia|].
    rewrite !sleeps_app, (reconnect_effects_sleeps _ _ _ Hbody). done.
Qed.

Lemma backoff_run_pacing u i t v :
  backoff_run u i t v ->
  sleeps_before_dials [] t = (fun j => [backoff j]) <$> seq i (dials t).
Proof.
  induction 1 as [|i Hi|i body rest v Hi Hbody _ IH|i body id Hi Hbody].
  - done.
  - done.
  - cbn [app sleeps_before_dials].
    rewrite (reconnect_effects_pacing _ _ _ _ _ Hbody).
    cbn [app sleeps_before_dials]. rewrite IH.
    unfold dials. cbn [count is_dial]. rewrite !count_app.
    apply reconnect_effects_dials in Hbody. unfold dials in Hbody.
    rewrite Hbody. done.
  - cbn [app sleeps_before_dials].
    rewrite (reconnect_effects_pacing _ _ _ _ _ Hbody).
    unfold dials. cbn [count is_dial sleeps_before_dials]. rewrite !count_app.
    apply reconnect_effects_dials in Hbody. unfold dials in Hbody.
    rewrite Hbody. done.
Qed.

Lemma backoff_run_connected u i t :
  backoff_run u i t (Some None) ->
  exists pre id,
    t = pre ++ [Dial u None; OpenChannel id None; Unlock; Spawn (Some id)]
    /\ count is_channel_opened pre = 0.
Proof.
  remember (Some None) as v eqn:Hv.
  induction 1 as [|i Hi|i body rest v Hi Hbody _ IH|i body id Hi Hbody].
  - done.
  - done.
  - destruct (IH Hv) as (pre & id & -> & Hpre).
    exists ([Sleep (backoff i); Lock; CheckClosed false] ++ body ++ [Unlock] ++ pre), id.
    split; [by rewrite <- !app_assoc|].
    rewrite !count_app, (reconnect_effects_failed _ _ Hbody), Hpre. done.
  - destruct (reconnect_effects_ok _ _ _ Hbody) as (old & -> & Hold).
    exists ([Sleep (backoff i); Lock; CheckClosed false] ++ old), id.
    split; [by rewrite <- !app_assoc|].
    by rewrite count_app, Hold.
Qed.

Lemma backoff_run_exhausted u i t v :
  backoff_run u i t v ->
  v = Some exhausted
  <-> dials t + i = maxReconnectAttempts /\ count is_channel_opened t = 0.
Proof.
  induction 1 as [|i Hi|i body rest v Hi Hbody _ IH|i body id Hi Hbody].
  - done.
  - split; [done|]. simpl. lia.
  - unfold dials in *. rewrite !count_app.
    pose proof (reconnect_effects_dials _ _ _ Hbody) as Hd. unfold dials in Hd.
    rewrite (reconnect_effects_failed _ _ Hbody). simpl. rewrite IH. lia.
  - split; [done|]. intros [_ Hc]. rewrite !count_app in Hc.
    destruct (reconnect_effects_ok _ _ _ Hbody) as (old & -> & Hold).
    rewrite count_app in Hc. simpl in Hc. lia.
Qed.

Lemma backoff_values :
  backoff <$> seq 0 maxReconnectAttempts
  = [1 * Second; 2 * Second; 4 * Second; 8 * Second; 16 * Second]%Z.
Proof. reflexivity. Qed.

Lemma backoff_monotone i : (backoff i <= backoff (S i))%Z.
Proof.
  unfold backoff. apply Z.min_le_compat_r.
  rewrite Nat2Z.inj_succ, Z.pow_succ_r by lia.
  unfold initialBackoff, Second.
  assert (0 < 2 ^ Z.of_nat i)%Z by (apply Z.pow_pos_nonneg; lia). lia.
Qed.

Lemma backoff_capped i : (0 < backoff i <= maxBackoff)%Z.
Proof.
  unfold backoff. split; [|apply Z.le_min_r].
  apply Z.min_glb_lt; [|done].
  unfold initialBackoff, Second.
  assert (0 < 2 ^ Z.of_nat i)%Z by (apply Z.pow_pos_nonneg; lia). lia.
Qed.

End client_properties.

(** *** The shape of the runs of the backoff-retry sequence *)

Section backoff_shape.
Import rabbitmq.

(** Where a trace without [p] is followed by more, the first [p] of the
    whole lies in what follows. *)
Lemma first_occurrence p (x rest pre post : list Effect) e :
  count p x = 0 -> p e = true ->
  x ++ rest = pre ++ e :: post ->
  exists pre', pre = x ++ pre' /\ rest = pre' ++ e :: post.
Proof.
  revert pre. induction x as [|y x IH]; intros pre Hx He Heq.
  - by exists pre.
  - simpl in Hx. destruct (p y) eqn:Hy; [done|].
    destruct pre as [|z pre]; simpl in Heq.
    + injection Heq as -> _. congruence.
    + injection Heq as -> Heq.
      destruct (IH pre Hx He Heq) as (pre' & -> & ->). by exists pre'.
Qed.

Lemma backoff_run_outcomes u i t v :
  backoff_run u i t v ->
  v = Some None \/ v = Some closed_during_reconnection \/ v = Some exhausted.
Proof. induction 1; auto. Qed.

Lemma backoff_run_starts u t v :
  backoff_run u 0 t v -> exists rest, t = Sleep (backoff 0) :: rest.
Proof. inversion 1; subst; eauto. Qed.

(** One sleep for each dial, and one more when the run ends on the flag. *)
Lemma backoff_run_sleep_count u i t v :
  backoff_run u i t v ->
  length (sleeps t)
  = dials t + (if decide (v = Some closed_during_reconnection) then 1 else 0).
Proof.
  induction 1 as [|i Hi|i body rest v Hi Hbody _ IH|i body id Hi Hbody].
  - done.
  - done.
  - rewrite !sleeps_app, (reconnect_effects_sleeps _ _ _ Hbody).
    unfold dials in *. rewrite !count_app.
    pose proof (reconnect_effects_dials _ _ _ Hbody) as Hd. unfold dials in Hd.
    simpl. rewrite IH, Hd. lia.
  - rewrite !sleeps_app, (reconnect_effects_sleeps _ _ _ Hbody).
    unfold dials in *. rewrite !count_app.
    pose proof (reconnect_effects_dials _ _ _ Hbody) as Hd. unfold dials in Hd.
    simpl. rewrite Hd. lia.
Qed.

(** The first channel that opens ends the run: with nil, after the unlock
    and the start of a close-watcher on its connection. *)
Lemma backoff_run_opened u i t v :
  backoff_run u i t v ->
  forall pre id post,
    t = pre ++ OpenChannel id None :: post ->
    v = Some None /\ post = [Unlock; Spawn (Some id)]
    /\ count is_channel_opened pre = 0.
Proof.
  induction 1 as [|i Hi|i body rest v Hi Hbody _ IH|i body id0 Hi Hbody];
    intros pre id post Heq.
  - by destruct pre.
  - assert (count is_channel_opened
              [Sleep (backoff i); Lock; CheckClosed true; Unlock] = 0) as H0 by done.
    rewrite Heq, count_app in H0. simpl in H0. lia.
  - rewrite !app_assoc in Heq.
    apply (first_occurrence is_channel_opened) in Heq as (pre' & -> & Hrest);
      [|by rewrite !count_app, (reconnect_effects_failed _ _ Hbody)|done].
    destruct (IH pre' id post Hrest) as (-> & -> & Hpre').
    split; [done|]. split; [done|].
    by rewrite !count_app, (reconnect_effects_failed _ _ Hbody), Hpre'.
  - destruct (reconnect_effects_ok _ _ _ Hbody) as (old & -> & Hold).
    replace (([Sleep (backoff i); Lock; CheckClosed false]
              ++ (old ++ [Dial u None; OpenChannel id0 None])
              ++ [Unlock; Spawn (Some id0)]))
      with (([Sleep (backoff i); Lock; CheckClosed false] ++ old ++ [Dial u None])
            ++ [OpenChannel id0 None; Unlock; Spawn (Some id0)]) in Heq
      by (by rewrite <- !app_assoc).
    apply (first_occurrence is_channel_opened) in Heq as (pre' & -> & Hrest);
      [|by rewrite !count_app, Hold|done].
    destruct pre' as [|x pre'].
    + simpl in Hrest. simplify_eq.
      split; [done|]. split; [done|].
      rewrite app_nil_r. by rewrite !count_app, Hold.
    + simpl in Hrest. injection Hrest as _ Hrest.
      assert (count is_channel_opened [Unlock; Spawn (Some id0)] = 0) as H0 by done.
      rewrite Hrest, count_app in H0. simpl in H0. lia.
Qed.

(** *** The sequence against a broker that accepts, or refuses, every call *)

Lemma release_reply c w : reply (world (release c w)) = reply w.
Proof.
  unfold release, Channel_Close, Connection_IsClosed, Connection_Close,
    library_call, bind, ret, get.
  destruct c as [[id|] [ch|] u b]; simpl; by repeat case_match.
Qed.

Lemma connect_reply c w :
  reply (world (connect c w)) = reply w
  /\ (reply w (calls w) = None -> reply w (S (calls w)) = None ->
      value (connect c w) = Some None)
  /\ (is_Some (reply w (calls w)) -> exists e, value (connect c w) = Some (Some e)).
Proof.
  unfold connect, amqp_Dial, Connection_Channel, Connection_Close,
    bind, ret, get, modify, deref. simpl.
  destruct (reply w (calls w)) as [e|] eqn:E0; simpl.
  - split; [done|]. split; [done|]. intros _. by eexists.
  - destruct (reply w (S (calls w))) as [e|] eqn:E1; simpl.
    + split; [done|]. split; [done|]. by intros [? ?].
    + split; [done|]. split; [done|]. by intros [? ?].
Qed.

Lemma reconnect_reply c w :
  reply (world (reconnect c w)) = reply w
  /\ ((forall n, reply w n = None) -> value (reconnect c w) = Some None)
  /\ ((forall n, is_Some (reply w n)) ->
      exists e, value (reconnect c w) = Some (Some e)).
Proof.
  destruct (release_run c w) as (Hv & Hc & _).
  pose proof (release_reply c w) as Hr.
  unfold reconnect. rewrite (bind_run _ _ _ _ _ Hv).
  cbn [value client world trace]. rewrite Hc.
  destruct (connect_reply c (world (release c w))) as (Hw & Hok & Hno).
  rewrite Hr in *.
  split; [done|]. split; [intros H; by apply Hok|intros H; by apply Hno].
Qed.

End backoff_shape.

Section backoff_replies.
Import rabbitmq.
Context {Message : Type} (json_Marshal : Message -> string * error).

Lemma attempts_accepted sched n i c w :
  (forall n, reply w n = None) -> closed c = false -> sched i = [] ->
  let r := attempts json_Marshal sched (S n) i c w in
  value r = Some None /\ dials (trace r) = 1 /\ sleeps (trace r) = [backoff i].
Proof.
  intros Hw Hc Hs. cbv zeta. rewrite attempts_step, Hs. cbv zeta.
  unfold run_calls. cbn [fold_left fst snd]. rewrite Hc.
  destruct (reconnect_reply c (elapse (backoff i) w)) as (_ & Hok & _).
  destruct (reconnect_run c (elapse (backoff i) w)) as (He & _).
  rewrite (Hok Hw) in *. cbn [value trace].
  apply reconnect_effects_dials in He as Hd.
  apply reconnect_effects_sleeps in He as Hsl.
  split; [done|]. unfold dials in *.
  rewrite !count_app, !sleeps_app, Hd, Hsl. done.
Qed.

Lemma attempts_refused sched n i c w :
  (forall n, is_Some (reply w n)) -> closed c = false ->
  (forall j, sched j = []) ->
  i + n = maxReconnectAttempts ->
  let r := attempts json_Marshal sched n i c w in
  value r = Some exhausted /\ dials (trace r) = n
  /\ sleeps (trace r) = backoff <$> seq i n.
Proof.
  intros Hw Hc Hs. revert i c w Hw Hc.
  induction n as [|n IH]; intros i c w Hw Hc Hn; cbv zeta.
  - done.
  - rewrite attempts_step, Hs. cbv zeta.
    unfold run_calls. cbn [fold_left fst snd]. rewrite Hc.
    destruct (reconnect_reply c (elapse (backoff i) w)) as (Hr & _ & Hno).
    destruct (reconnect_run c (elapse (backoff i) w)) as (He & _ & _ & Hcl & _).
    destruct (Hno Hw) as [e Hv]. rewrite Hv in *. cbn [value trace].
    apply reconnect_effects_dials in He as Hd.
    apply reconnect_effects_sleeps in He as Hsl.
    destruct (IH (S i) (client (reconnect c (elapse (backoff i) w)))
                (world (reconnect c (elapse (backoff i) w)))) as (Hv' & Hd' & Hs').
    + intros m. rewrite Hr. apply Hw.
    + by rewrite Hcl.
    + lia.
    + split; [done|]. unfold dials in *.
      rewrite !count_app, !sleeps_app, Hd, Hsl, Hd', Hs'. done.
Qed.

End backoff_replies.

Section client_claims.
Import rabbitmq.
Context {Message : Type} (json_Marshal : Message -> string * error).

(** *** HealthCheck *)

(** C7. [HealthCheck] leaves every field of the client as it found it and
    neither dials, sleeps nor closes anything.  When the connection is
    absent or reports itself closed, or the channel is absent, it fails
    without any exchange with the broker; otherwise its only exchange is
    the declaration of a transient, exclusive, auto-deleted queue of
    server-chosen name, and it fails exactly when the broker rejects that
    declaration. *)
Theorem HealthCheck_read_only (c : Client) (w : World) :
  let r := HealthCheck c w in
  client r = c
  /\ dials (trace r) = 0
  /\ sleeps (trace r) = []
  /\ count is_teardown (trace r) = 0
  /\ match down c w, channel c with
     | true, _ =>
         value r = Some (Some "connection is closed") /\ trace r = [Lock; Unlock]
     | false, None =>
         value r = Some (Some "channel is nil") /\ trace r = [Lock; Unlock]
     | false, Some ch =>
         exists e,
           trace r = [Lock; QueueDeclare ch "" false true true false e; Unlock]
           /\ value r = Some (match e with
                              | Some m => Some ("health check failed: " +:+ m)
                              | None => None
                              end)
           /\ (value r = Some None <-> e = None)
     end.
Proof.
  cbv zeta. rewrite HealthCheck_run.
  destruct (down c w); [done|].
  destruct (channel c) as [ch|]; [|done].
  cbv zeta. cbn [value client world trace].
  repeat split; try done.
  exists (reply w (calls w)). repeat split; try done.
  - by destruct (reply w (calls w)).
  - by intros ->.
Qed.

(** *** Publish *)

Lemma locked_count {A} p (m : M A) c w :
  p Lock = false -> p Unlock = false ->
  count p (trace (locked m c w)) = count p (trace (m c w)).
Proof.
  intros H1 H2. unfold locked. cbn [trace count]. rewrite H1, count_app.
  simpl. rewrite H2. lia.
Qed.




(** *** Close *)

(** C5, amended.  [Close] sets the flag and keeps the handles; it closes the
    channel, when there is one, and then the connection, when there is one,
    whatever the first close returned, and reports both errors in one.  A
    second [Close] is a [Close] like the first, on the same handles: it
    attempts the same closes again and reports what they return; it is
    without effect and succeeds when the client holds neither a channel nor
    a connection. *)
Theorem Close_closes_both (c : Client) (w : World) :
  let r := Close c w in
  let again := Close (client r) (world r) in
  let handles (e1 e2 : error) :=
    Lock :: match channel c with Some ch => [CloseChannel ch e1] | None => [] end
         ++ match conn c with Some id => [CloseConnection id e2] | None => [] end
         ++ [Unlock] in
  let absent (p : option nat) (e : error) :=
    match p with Some _ => True | None => e = None end in
  client r = set_closed true c
  /\ (exists e1 e2,
        absent (channel c) e1 /\ absent (conn c) e2
        /\ trace r = handles e1 e2
        /\ value r = Some (close_report e1 e2))
  /\ client again = set_closed true c
  /\ (exists e1 e2,
        absent (channel c) e1 /\ absent (conn c) e2
        /\ trace again = handles e1 e2
        /\ value again = Some (close_report e1 e2))
  /\ (channel c = None -> conn c = None ->
      value again = Some None /\ trace again = [Lock; Unlock]).
Proof.
  assert (forall c w,
    client (Close c w) = set_closed true c
    /\ exists e1 e2,
        match channel c with Some _ => True | None => e1 = None end
        /\ match conn c with Some _ => True | None => e2 = None end
        /\ trace (Close c w)
           = Lock :: match channel c with Some ch => [CloseChannel ch e1] | None => [] end
                  ++ match conn c with Some id => [CloseConnection id e2] | None => [] end
                  ++ [Unlock]
        /\ value (Close c w) = Some (close_report e1 e2)) as Hone.
  { clear. intros c w. split; [apply Close_client|].
    rewrite Close_run. unfold locked.
    pose proof (close_handles_run (set_closed true c) w) as H. cbv zeta in H.
    rewrite H. cbn [value trace set_closed channel conn].
    eexists _, _. split; [|split; [|split; [|reflexivity]]].
    - by destruct (channel c).
    - by destruct (conn c).
    - by rewrite <- app_assoc. }
  cbv zeta. destruct (Hone c w) as [Hc Hr]. rewrite Hc.
  destruct (Hone (set_closed true c) (world (Close c w))) as [Hc' Hr'].
  cbn [set_closed channel conn] in Hr'.
  split; [done|]. split; [done|]. split; [done|]. split; [done|].
  intros Hch Hco. destruct Hr' as (e1 & e2 & H1 & H2 & Ht & Hv).
  rewrite Hch in *. rewrite Hco in *. subst. done.
Qed.

Lemma Close_shuts c w id :
  conn c = Some id -> id ∈ shut (world (Close c w)).
Proof.
  intros Hid. rewrite Close_run. unfold locked. cbn [world].
  pose proof (close_handles_run (set_closed true c) w) as H. cbv zeta in H.
  rewrite H. cbn [world set_closed conn channel]. rewrite Hid.
  simpl. apply elem_of_cons. by left.
Qed.

Lemma Close_leaves_stale c w :
  stale (client (Close c w)) (world (Close c w)) = true.
Proof.
  unfold stale, down. rewrite Close_client. cbn [set_closed conn channel].
  destruct (conn c) as [id|] eqn:Hid; [|done].
  by rewrite (bool_decide_eq_true_2 _ (Close_shuts c w id Hid)).
Qed.

(** C1.  After [Close], on every client and in every world,
    [ensureConnection] runs [reconnect] and dials once, an exchange with the
    broker: it does not consult the flag.  With a broker that accepts every call, a client that was
    closed comes back connected, its flag still set. *)
Theorem ensureConnection_after_Close_dials (c : Client) (w : World) :
  let closing := Close c w in
  let r := ensureConnection (client closing) (world closing) in
  let connected := NewClient "amqp://broker" willing in
  let shut_down := Close (client connected) (world connected) in
  let revived := ensureConnection (client shut_down) (world shut_down) in
  closed (client closing) = true
  /\ dials (trace r) = 1
  /\ 1 <= count is_network (trace r)
  /\ (exists body,
        trace r = Lock :: body ++ [Unlock]
        /\ reconnect_effects (url c) (opened r (value r)) body)
  /\ value shut_down = Some None
  /\ value revived = Some None
  /\ trace revived
     = [Lock; CloseChannel 1 None; Dial "amqp://broker" None;
        OpenChannel 5 None; Unlock]
  /\ client revived = mkClient (Some 5) (Some 6) "amqp://broker" true.
Proof.
  cbv zeta. split; [by rewrite Close_client|].
  rewrite ensureConnection_run, Close_leaves_stale.
  destruct (reconnect_run (client (Close c w)) (world (Close c w)))
    as (He & _ & _).
  rewrite Close_client in He at 1. cbn [set_closed url] in He.
  unfold locked. cbn [trace value client].
  assert (dials (Lock :: trace (reconnect (client (Close c w)) (world (Close c w)))
                 ++ [Unlock]) = 1) as Hd.
  { apply reconnect_effects_dials in He. unfold dials in *.
    change (Lock :: ?t ++ [Unlock]) with ([Lock] ++ t ++ [Unlock]).
    rewrite !count_app. cbn [count is_dial]. lia. }
  split; [done|]. split; [|split; [by eexists|by vm_compute]].
  rewrite <- Hd. apply count_le. by intros [].
Qed.

(** *** The close-watcher after Close *)

(** C10. [Close] closes the handles in a state where the flag is already set,
    and the flag is set when it returns, whatever it returns.  Whatever the
    other goroutines call afterwards, the flag stays set, and a close-watcher
    that then receives an abnormal close notification takes the mutex, reads
    the flag and returns: it neither sleeps nor dials. *)
Theorem Close_silences_watcher (c : Client) (w : World) (later : list Call)
    (notification : string) (sched : nat -> list Call) :
  let closing := Close c w in
  let cw := run_calls json_Marshal later (client closing) (world closing) in
  closing = locked close_handles (set_closed true c) w
  /\ closed (client closing) = true
  /\ closed cw.1 = true
  /\ watcher json_Marshal (Some notification) sched cw.1 cw.2
     = mkResult (Some tt) cw.1 cw.2 [Lock; CheckClosed true; Unlock].
Proof.
  cbv zeta. split; [apply Close_run|].
  assert (closed (client (Close c w)) = true) as Hc by (by rewrite Close_client).
  split; [done|].
  destruct (run_calls_frame json_Marshal later (client (Close c w)) (world (Close c w)))
    as [_ Hl].
  specialize (Hl Hc). split; [done|].
  unfold watcher, bind, emit, get, ret. cbn [value client world trace].
  rewrite Hl. done.
Qed.

(** *** The backoff-retry sequence and the flag *)

Lemma attempts_closed_start sched n i c w :
  closed c = true ->
  let r := attempts json_Marshal sched (S n) i c w in
  trace r = [Sleep (backoff i); Lock; CheckClosed true; Unlock]
  /\ value r = Some closed_during_reconnection.
Proof.
  intros Hc. cbv zeta. rewrite attempts_step. cbv zeta.
  destruct (run_calls_frame json_Marshal (sched i) c (elapse (backoff i) w)) as [_ Hl].
  by rewrite (Hl Hc).
Qed.

Lemma attempts_closed_at sched j n i c w :
  i + n = maxReconnectAttempts -> i <= j < maxReconnectAttempts ->
  CallClose ∈ sched j ->
  let r := attempts json_Marshal sched n i c w in
  dials (trace r) + i <= j
  /\ (value r = Some None \/ value r = Some closed_during_reconnection).
Proof.
  intros Hn Hj Hin. revert i c w Hn Hj.
  induction n as [|n IH]; intros i c w Hn Hj; [lia|].
  cbv zeta. rewrite attempts_step. cbv zeta.
  pose proof (run_calls_closed json_Marshal (sched i) c (elapse (backoff i) w)) as Hcl.
  destruct (run_calls json_Marshal (sched i) c (elapse (backoff i) w)) as [c' w'].
  cbn [fst snd] in *.
  destruct (closed c') eqn:Hc.
  { cbn [value trace]. unfold dials. simpl. split; [lia|by right]. }
  assert (i <> j) as Hij.
  { intros ->. by specialize (Hcl Hin). }
  destruct (reconnect_run c' w') as (He & [v Hv] & _).
  apply reconnect_effects_dials in He. unfold dials in *.
  rewrite Hv. destruct v as [e|]; cbn [value trace].
  - destruct (IH (S i) (client (reconnect c' w')) (world (reconnect c' w')))
      as [Hd Hr]; [lia..|].
    split; [|done]. rewrite !count_app. simpl. lia.
  - split; [|by left]. rewrite !count_app. simpl. lia.
Qed.

(** C3, amended.  Every run of the backoff-retry sequence is a [backoff_run]:
    each attempt sleeps first and then reads the flag once, under the mutex,
    before any effect of [reconnect]; on reading it set the sequence unlocks
    and returns "client closed during reconnection" without any further
    effect.  A sequence started with the flag set sleeps once and aborts.
    When another goroutine calls [Close] during the sleep of attempt [j],
    the sequence dials at most [j] times, and it either had reconnected
    before or returns that error, which is not the error of exhaustion. *)
Theorem reconnectWithBackoff_checks_after_sleep
    (sched : nat -> list Call) (c : Client) (w : World) :
  let r := reconnectWithBackoff json_Marshal sched c w in
  backoff_run (url c) 0 (trace r) (value r)
  /\ (closed c = true ->
      trace r = [Sleep (backoff 0); Lock; CheckClosed true; Unlock]
      /\ value r = Some closed_during_reconnection)
  /\ (forall j, j < maxReconnectAttempts -> CallClose ∈ sched j ->
      dials (trace r) <= j
      /\ (value r = Some None \/ value r = Some closed_during_reconnection))
  /\ closed_during_reconnection <> exhausted.
Proof.
  cbv zeta. unfold reconnectWithBackoff.
  split; [by apply attempts_run|].
  split; [intros Hc; by apply attempts_closed_start|].
  split; [|done].
  intros j Hj Hin.
  destruct (attempts_closed_at sched j maxReconnectAttempts 0 c w) as [Hd Hr];
    [done|lia|done|].
  split; [lia|done].
Qed.

(** *** The bounds of the backoff-retry sequence *)

(** C4. Every run of the backoff-retry sequence is a [backoff_run] from
    attempt 0: it returns, with nil, with "client closed during
    reconnection" or with "failed to reconnect after 5 attempts"; it starts
    by sleeping 1s and dials at most 5 times.  Between the dial of attempt
    [i] and the dial before it, the sequence sleeps exactly once, for
    [min (1s * 2^i) 30s]; its sleeps are the first few of 1s, 2s, 4s, 8s,
    16s, one for each dial and one more when the run ends on the flag; the
    backoff never decreases and never exceeds 30s.  As soon as a dial is
    followed by the opening of its channel, the run is over: nothing
    precedes that opening but failed attempts, nothing follows it but the
    unlock and the start of a close-watcher on the new connection, and the
    run returns nil; a run that returns nil ends so.  A run returns "failed
    to reconnect after 5 attempts" exactly when it dialled 5 times and no
    channel opened.  Against a broker that accepts every call, a sequence
    started with the flag unset and undisturbed in its first sleep succeeds
    at its first attempt; against one that refuses every call, an
    undisturbed sequence sleeps 1s, 2s, 4s, 8s and 16s, dials 5 times and
    gives up.  (An attempt succeeds when both the dial and the opening of
    the channel do.) *)
Theorem reconnectWithBackoff_bounded
    (sched : nat -> list Call) (c : Client) (w : World) :
  let r := reconnectWithBackoff json_Marshal sched c w in
  is_Some (value r)
  /\ dials (trace r) <= 5
  /\ sleeps_before_dials [] (trace r)
     = (fun i => [Z.min (1 * Second * 2 ^ Z.of_nat i) (30 * Second)])
       <$> seq 0 (dials (trace r))
  /\ (exists k, k <= 5
       /\ sleeps (trace r)
          = take k [1 * Second; 2 * Second; 4 * Second; 8 * Second; 16 * Second]%Z)
  /\ (forall i, (backoff i <= backoff (S i))%Z /\ (0 < backoff i <= 30 * Second)%Z)
  /\ (value r = Some None ->
      exists pre id,
        trace r = pre ++ [Dial (url c) None; OpenChannel id None; Unlock;
                          Spawn (Some id)]
        /\ count is_channel_opened pre = 0)
  /\ (value r = Some (Some "failed to reconnect after 5 attempts")
      <-> dials (trace r) = 5 /\ count is_channel_opened (trace r) = 0)
  /\ backoff_run (url c) 0 (trace r) (value r)
  /\ (exists rest, trace r = Sleep (1 * Second) :: rest)
  /\ (value r = Some None
      \/ value r = Some (Some "client closed during reconnection")
      \/ value r = Some (Some "failed to reconnect after 5 attempts"))
  /\ length (sleeps (trace r))
     = dials (trace r)
       + (if decide (value r = Some (Some "client closed during reconnection"))
          then 1 else 0)
  /\ (forall pre id post,
        trace r = pre ++ OpenChannel id None :: post ->
        value r = Some None
        /\ post = [Unlock; Spawn (Some id)]
        /\ count is_channel_opened pre = 0)
  /\ ((forall n, reply w n = None) -> closed c = false -> sched 0 = [] ->
      value r = Some None
      /\ dials (trace r) = 1
      /\ sleeps (trace r) = [1 * Second]%Z)
  /\ ((forall n, is_Some (reply w n)) -> closed c = false ->
      (forall j, sched j = []) ->
      value r = Some (Some "failed to reconnect after 5 attempts")
      /\ dials (trace r) = 5
      /\ sleeps (trace r)
         = [1 * Second; 2 * Second; 4 * Second; 8 * Second; 16 * Second]%Z).
Proof.
  cbv zeta.
  pose proof (attempts_run json_Marshal sched maxReconnectAttempts 0 c w eq_refl) as H.
  cbv zeta in H. fold (reconnectWithBackoff json_Marshal sched) in H.
  split; [by eapply backoff_run_returns|].
  split; [apply backoff_run_dials in H; unfold maxReconnectAttempts in H; lia|].
  split; [by rewrite (backoff_run_pacing _ _ _ _ H)|].
  split.
  { destruct (backoff_run_sleeps _ _ _ _ H) as (k & Hk & ->).
    exists k. split; [unfold maxReconnectAttempts in Hk; lia|].
    rewrite <- backoff_values. unfold maxReconnectAttempts in *.
    rewrite <- fmap_take. f_equal.
    rewrite take_seq. f_equal. lia. }
  split; [intros i; split; [apply backoff_monotone|apply backoff_capped]|].
  split.
  { intros Hv. rewrite Hv in H. by apply (backoff_run_connected _ 0). }
  split.
  { change (Some "failed to reconnect after 5 attempts") with exhausted.
    rewrite (backoff_run_exhausted _ _ _ _ H). unfold maxReconnectAttempts. lia. }
  split; [done|].
  split; [by apply (backoff_run_starts (url c) _ (value (reconnectWithBackoff json_Marshal sched c w)))|].
  split; [by apply (backoff_run_outcomes _ _ _ _ H)|].
  split; [by apply (backoff_run_sleep_count _ _ _ _ H)|].
  split; [by apply (backoff_run_opened _ _ _ _ H)|].
  split.
  { intros Hw Hc Hs.
    by apply (attempts_accepted json_Marshal sched 4 0 c w). }
  intros Hw Hc Hs.
  by apply (attempts_refused json_Marshal sched maxReconnectAttempts 0 c w).
Qed.

End client_claims.

Section client_examples.
Import rabbitmq.

(** C5, as stated, fails: with a library that refuses to close a connection
    twice, the second [Close] of a connected client attempts both closes
    again and returns an error. *)
Lemma Close_again_fails :
  let connected := NewClient "amqp://broker" close_once in
  let first := Close (client connected) (world connected) in
  let again := Close (client first) (world first) in
  value connected = Some None
  /\ value first = Some None
  /\ value again
     = Some (Some "failed to close connection: channel/connection is not open")
  /\ trace again
     = [Lock; CloseChannel 1 None;
        CloseConnection 0 (Some "channel/connection is not open"); Unlock].
Proof. vm_compute. done. Qed.

(** C3, as stated, fails: started on a client whose flag is already set, the
    sequence sleeps for a second before it reads the flag. *)
Lemma reconnectWithBackoff_sleeps_unchecked :
  let connected := NewClient "amqp://broker" willing in
  let shut := Close (client connected) (world connected) in
  let r := reconnectWithBackoff marshal_unit (fun _ => []) (client shut) (world shut) in
  closed (client shut) = true
  /\ trace r = [Sleep 1000000000; Lock; CheckClosed true; Unlock]
  /\ value r = Some (Some "client closed during reconnection").
Proof. vm_compute. done. Qed.

Example reconnectWithBackoff_closed_midway :
  let connected := NewClient "amqp://broker" willing in
  let r := reconnectWithBackoff marshal_unit
             (fun i => if decide (i = 2) then [CallClose] else [])
             (client connected) unreachable in
  value r = Some (Some "client closed during reconnection")
  /\ dials (trace r) = 2
  /\ sleeps (trace r) = [1000000000; 2000000000; 4000000000]%Z.
Proof. vm_compute. done. Qed.

Example reconnectWithBackoff_gives_up :
  let connected := NewClient "amqp://broker" willing in
  let r := reconnectWithBackoff marshal_unit (fun _ => [])
             (client connected) unreachable in
  value r = Some (Some "failed to reconnect after 5 attempts")
  /\ dials (trace r) = 5
  /\ sleeps (trace r)
     = [1000000000; 2000000000; 4000000000; 8000000000; 16000000000]%Z
  /\ clock (world r) = 31000000000%Z.
Proof. vm_compute. done. Qed.

(** The tests of [client_test.go] that run without a broker. *)
Example Close_without_connection :
  value (Close (mkClient None None "amqp://test" true) willing) = Some None.
Proof. reflexivity. Qed.

Example HealthCheck_nil_connection :
  value (HealthCheck (mkClient None None "amqp://test" false) willing)
  = Some (Some "connection is closed").
Proof. reflexivity. Qed.

Example NewClient_unreachable :
  value (NewClient "amqp://test" unreachable)
  = Some (Some ("failed to connect to RabbitMQ: "
                +:+ "failed to connect to RabbitMQ: connection refused")).
Proof. reflexivity. Qed.

Example Publish_unreachable :
  let r := Publish marshal_unit 0 "certificate-events" "certificate.renewed" tt
             (mkClient None None "amqp://test" false) unreachable in
  value r
  = Some (Some ("failed to ensure connection: "
                +:+ "failed to connect to RabbitMQ: connection refused"))
  /\ trace r = [Lock; Dial "amqp://test" (Some "connection refused"); Unlock].
Proof. vm_compute. done. Qed.

Example Publish_connected :
  let connected := NewClient "amqp://broker" willing in
  let r := Publish marshal_unit 0 "certificate-events" "certificate.renewed" tt
             (client connected) (world connected) in
  value r = Some None
  /\ trace r
     = [Lock; Unlock; Lock;
        ExchangeDeclare 1 "certificate-events" "topic" true false false false None;
        PublishWithContext 1 0 "certificate-events" "certificate.renewed"
          false false "application/json" "{}" 2 0 None;
        Unlock].
Proof. vm_compute. done. Qed.

End client_examples.

(** * Further properties of the event model *)

Section event_extras.
Import event.

Lemma HasPrefix_spec s p : HasPrefix s p = true <-> exists r, s = p +:+ r.
Proof.
  revert s. induction p as [|a p IH]; intros [|b s]; simpl.
  - split; [intros _; by exists ""|done].
  - split; [intros _; by exists (String b s)|done].
  - split; [done|]. intros [r Hr]. rewrite app_cons in Hr. done.
  - case_decide as Hab.
    + subst b. rewrite IH. split; intros [r Hr]; exists r.
      * by rewrite app_cons, Hr.
      * rewrite app_cons in Hr. by simplify_eq.
    + split; [done|]. intros [r Hr]. rewrite app_cons in Hr. by simplify_eq.
Qed.

(** X1. [FilterAnnotations] never returns the nil map, and its result maps
    [k] to [v] exactly when the annotations map [k] to [v] and [k] starts
    with the prefix. *)
Theorem FilterAnnotations_lookup (annotations : GoMap) (prefix k v : string) :
  FilterAnnotations annotations prefix <> nil_map
  /\ (lookup_ok (FilterAnnotations annotations prefix) k = Some v
      <-> lookup_ok annotations k = Some v /\ exists r, k = prefix +:+ r).
Proof.
  split; [by destruct annotations|].
  rewrite <- HasPrefix_spec.
  destruct annotations as [|m]; simpl.
  - rewrite lookup_empty. split; [done|by intros [? _]].
  - by rewrite map_lookup_filter_Some.
Qed.

Lemma FilterAnnotations_filter (a : GoMap) (p q : string) :
  FilterAnnotations (FilterAnnotations a p) q
  = match a with
    | nil_map => mk_map ∅
    | mk_map m =>
        mk_map (filter (fun kv => HasPrefix kv.1 p = true /\ HasPrefix kv.1 q = true) m)
    end.
Proof.
  destruct a as [|m]; simpl; [by rewrite map_filter_empty|].
  f_equal. apply map_eq. intros k. apply option_eq. intros v.
  rewrite !map_lookup_filter_Some. simpl. tauto.
Qed.

(** X2. Filtering twice by the same prefix is filtering once; filters by two
    prefixes commute; filtering by a prefix and then by an extension of it is
    filtering by the extension; the nil map filters like the empty one. *)
Theorem FilterAnnotations_idempotent (annotations : GoMap) (p q : string) :
  FilterAnnotations (FilterAnnotations annotations p) p
  = FilterAnnotations annotations p
  /\ FilterAnnotations (FilterAnnotations annotations p) q
     = FilterAnnotations (FilterAnnotations annotations q) p
  /\ FilterAnnotations (FilterAnnotations annotations p) (p +:+ q)
     = FilterAnnotations annotations (p +:+ q)
  /\ FilterAnnotations nil_map p = FilterAnnotations (mk_map ∅) p.
Proof.
  rewrite !FilterAnnotations_filter.
  destruct annotations as [|m]; simpl; [by rewrite map_filter_empty|].
  split; [|split; [|split]].
  - f_equal. apply map_filter_ext. intros k v _. simpl. tauto.
  - f_equal. apply map_filter_ext. intros k v _. simpl. tauto.
  - f_equal. apply map_filter_ext. intros k v _. simpl.
    split; [tauto|]. intros H. split; [|done].
    apply HasPrefix_spec in H as [r ->]. apply HasPrefix_spec.
    exists (q +:+ r). by rewrite string_app_assoc.
  - by rewrite map_filter_empty.
Qed.

(** Looking up a key that has the prefix finds the same value before and
    after filtering. *)
Lemma index_FilterAnnotations a p k :
  HasPrefix k p = true -> index (FilterAnnotations a p) k = index a k.
Proof.
  intros Hk. destruct a as [|m]; simpl; [by rewrite lookup_empty|].
  destruct (m !! k) as [v|] eqn:Hv.
  - by rewrite (proj2 (map_lookup_filter_Some _ m k v) (conj Hv Hk)).
  - by rewrite (proj2 (map_lookup_filter_None _ m k) (or_introl Hv)).
Qed.

Lemma FilterAnnotations_twice a p :
  FilterAnnotations (FilterAnnotations a p) p = FilterAnnotations a p.
Proof.
  rewrite FilterAnnotations_filter. destruct a as [|m]; simpl; [done|].
  f_equal. apply map_filter_ext. intros k v _. simpl. tauto.
Qed.

(** [NewMessage] in terms of the annotations it keeps. *)
Lemma NewMessage_eq name namespace secretName labels annotations now :
  let meta := FilterAnnotations annotations AnnotationPrefix in
  NewMessage name namespace secretName labels annotations now
  = {| Event := "certificate.renewed";
       Certificate := name;
       Namespace := namespace;
       SecretName := secretName;
       TargetType := index meta "cert-webhook.golder.tech/target";
       DockerEngine := index meta "cert-webhook.golder.tech/docker-engine";
       DockerComposePath := index meta "cert-webhook.golder.tech/docker-compose-path";
       ContainerNames :=
         ParseContainerNames (index meta "cert-webhook.golder.tech/container-names");
       Timestamp := now;
       Trigger := "cert-manager-webhook";
       Metadata := <["labels" := labels]> (<["annotations" := meta]> ∅) |}.
Proof.
  cbv zeta. unfold NewMessage.
  rewrite !index_FilterAnnotations by (by vm_compute).
  destruct annotations as [|m]; simpl; [|done].
  by rewrite map_filter_empty, !lookup_empty.
Qed.

(** X3. The message depends on the annotations only through those under
    [AnnotationPrefix]: dropping every other annotation beforehand gives the
    same message.  A nil annotation map gives the message of the empty one. *)
Theorem NewMessage_ignores_foreign_annotations
    (name namespace secretName : string) (labels annotations : GoMap) (now : Z) :
  NewMessage name namespace secretName labels annotations now
  = NewMessage name namespace secretName labels
      (FilterAnnotations annotations AnnotationPrefix) now.
Proof.
  pose proof (NewMessage_eq name namespace secretName labels annotations now) as H1.
  pose proof (NewMessage_eq name namespace secretName labels
                (FilterAnnotations annotations AnnotationPrefix) now) as H2.
  cbv zeta in *. rewrite FilterAnnotations_twice in H2. congruence.
Qed.

(** X4. The metadata of a message has exactly the keys [labels] and
    [annotations]; the labels are those given, the annotations are the
    filtered ones, and the target type, Docker engine, compose path and
    container names of the message are what its own metadata annotations
    hold under the four recognised keys. *)
Theorem NewMessage_fields_from_metadata
    (name namespace secretName : string) (labels annotations : GoMap) (now : Z) :
  let msg := NewMessage name namespace secretName labels annotations now in
  let meta := FilterAnnotations annotations AnnotationPrefix in
  dom (Metadata msg) = {["labels"; "annotations"]}
  /\ Metadata msg !! "labels" = Some labels
  /\ Metadata msg !! "annotations" = Some meta
  /\ TargetType msg = index meta "cert-webhook.golder.tech/target"
  /\ DockerEngine msg = index meta "cert-webhook.golder.tech/docker-engine"
  /\ DockerComposePath msg = index meta "cert-webhook.golder.tech/docker-compose-path"
  /\ ContainerNames msg
     = ParseContainerNames (index meta "cert-webhook.golder.tech/container-names")
  /\ (Event msg, Certificate msg, Namespace msg, SecretName msg, Trigger msg, Timestamp msg)
     = ("certificate.renewed", name, namespace, secretName, "cert-manager-webhook", now).
Proof.
  cbv zeta.
  pose proof (NewMessage_eq name namespace secretName labels annotations now) as H.
  cbv zeta in H. rewrite H.
  cbn [Metadata TargetType DockerEngine DockerComposePath ContainerNames
       Event Certificate Namespace SecretName Trigger Timestamp].
  split; [|split; [|split; [|done]]].
  - rewrite !dom_insert_L, dom_empty_L. set_solver.
  - by rewrite lookup_insert_eq.
  - rewrite lookup_insert_ne by done. by rewrite lookup_insert_eq.
Qed.

(** X5. The routing target can be resolved from the message alone:
    [ExchangeAndRoutingKey] on the [annotations] metadata of the message
    gives the exchange and routing key it gives on the annotations the
    message was built from. *)
Theorem routing_from_message_metadata
    (name namespace secretName : string) (labels annotations : GoMap) (now : Z) :
  let msg := NewMessage name namespace secretName labels annotations now in
  exists meta,
    Metadata msg !! "annotations" = Some meta
    /\ ExchangeAndRoutingKey meta = ExchangeAndRoutingKey annotations.
Proof.
  cbv zeta. exists (FilterAnnotations annotations AnnotationPrefix). split.
  - pose proof (NewMessage_eq name namespace secretName labels annotations now) as H.
    cbv zeta in H. rewrite H. cbn [Metadata].
    rewrite lookup_insert_ne by done. by rewrite lookup_insert_eq.
  - unfold ExchangeAndRoutingKey.
    by rewrite !index_FilterAnnotations by (by vm_compute).
Qed.

(** *** More on ParseContainerNames *)

Lemma ParseContainerNames_eq s :
  ParseContainerNames s
  = mk_slice (filter (fun t => t <> "") (TrimSpace <$> SplitSeq s ",")).
Proof.
  unfold ParseContainerNames. case_decide as Hs.
  - subst s. vm_compute. reflexivity.
  - by rewrite collect_names_spec.
Qed.

Lemma SplitSeq_app s1 s2 sep :
  SplitSeq (s1 +:+ String sep s2) sep = SplitSeq s1 sep ++ SplitSeq s2 sep.
Proof.
  induction s1 as [|c r IH].
  - change ("" +:+ String sep s2) with (String sep s2). simpl.
    by rewrite decide_True.
  - rewrite app_cons. simpl. rewrite IH. case_decide; [done|].
    pose proof (SplitSeq_nonempty r sep).
    by destruct (SplitSeq r sep).
Qed.

Lemma SplitSeq_single t sep :
  contains_byte sep t = false -> SplitSeq t sep = [t].
Proof.
  induction t as [|c r IH]; simpl; [done|].
  case_decide; [done|]. intros H'. by rewrite IH.
Qed.

Lemma SplitSeq_Join l sep :
  l <> [] -> Forall (fun t => contains_byte sep t = false) l ->
  SplitSeq (Join l sep) sep = l.
Proof.
  intros Hl Hf. induction Hf as [|t l Ht Hf IH]; [done|].
  destruct l as [|t' l]; simpl.
  - by apply SplitSeq_single.
  - rewrite SplitSeq_app, (SplitSeq_single t sep Ht). simpl. f_equal.
    by apply IH.
Qed.

Lemma SplitSeq_length s sep : length (SplitSeq s sep) = S (count_byte sep s).
Proof.
  induction s as [|c r IH]; simpl; [done|].
  case_decide; simpl; [by rewrite IH|].
  pose proof (SplitSeq_nonempty r sep).
  destruct (SplitSeq r sep); [done|]. simpl in *. lia.
Qed.

Lemma contains_byte_app c a b :
  contains_byte c (a +:+ b) = contains_byte c a || contains_byte c b.
Proof.
  induction a as [|x a IH]; [done|]. rewrite app_cons. simpl.
  by case_decide.
Qed.

Lemma TrimSpace_fixed t :
  strip_rune white_space t = None ->
  strip_rune (map String.rev white_space) (String.rev t) = None ->
  TrimSpace t = t.
Proof.
  intros Hl Hr. unfold TrimSpace, TrimLeftSpace, TrimRightSpace.
  assert (forall n runes s, strip_rune runes s = None -> trim_left n runes s = s) as Hfix.
  { intros [|n] runes s H; simpl; [done|by rewrite H]. }
  rewrite (Hfix _ _ _ Hl), (Hfix _ _ _ Hr). apply string_rev_involutive.
Qed.

(** [TrimSpace s] is what is left of [s] between a prefix and a suffix. *)
Lemma TrimSpace_within s : exists a b, s = a +:+ TrimSpace s +:+ b.
Proof.
  unfold TrimSpace, TrimRightSpace.
  destruct (trim_left_suffix white_space (String.length s) s) as [a Ha].
  fold (TrimLeftSpace s) in Ha. set (t := TrimLeftSpace s) in *.
  destruct (trim_left_suffix (map String.rev white_space) (String.length t)
              (String.rev t)) as [z Hz].
  set (y := trim_left _ _ _) in *.
  exists a, (String.rev z). rewrite Ha at 1. f_equal.
  by rewrite <- string_rev_app_distr, <- Hz, string_rev_involutive.
Qed.

Lemma TrimSpace_no_byte c s :
  contains_byte c s = false -> contains_byte c (TrimSpace s) = false.
Proof.
  destruct (TrimSpace_within s) as (a & b & Hs). intros H.
  rewrite Hs, !contains_byte_app in H.
  by destruct (contains_byte c a), (contains_byte c (TrimSpace s)).
Qed.

(** The names are trimmed, non-empty and free of commas. *)
Lemma ParseContainerNames_names s :
  Forall (fun t => t <> "" /\ TrimSpace t = t /\ contains_byte "," t = false)
    (elements (ParseContainerNames s)).
Proof.
  rewrite ParseContainerNames_eq. simpl. apply Forall_forall.
  intros t [Hne Ht]%list_elem_of_filter.
  apply list_elem_of_fmap in Ht as [tok [-> Hin]].
  split; [done|]. split.
  - apply TrimSpace_fixed; [apply TrimSpace_no_leading|apply TrimSpace_no_trailing].
  - apply TrimSpace_no_byte.
    pose proof (SplitSeq_no_sep s ",") as Hf.
    by apply (proj1 (Forall_forall _ _) Hf).
Qed.

(** X6. Parsed names are in normal form: joining them with commas and parsing
    the result gives the same names. *)
Theorem ParseContainerNames_normal_form (s : string) :
  ParseContainerNames (Join (elements (ParseContainerNames s)) ",")
  = ParseContainerNames s.
Proof.
  pose proof (ParseContainerNames_names s) as Hn.
  rewrite (ParseContainerNames_eq s) in *. simpl in *.
  generalize dependent (filter (fun t => t <> "") (TrimSpace <$> SplitSeq s ",")).
  intros l Hn. rewrite ParseContainerNames_eq. f_equal.
  destruct l as [|n l]; [done|].
  rewrite SplitSeq_Join; [|done|by eapply Forall_impl; [exact Hn|intros ? (_ & _ & ?)]].
  induction Hn as [|t l' (Hne & Ht & _) _ IH]; [done|].
  rewrite fmap_cons, Ht, filter_cons, decide_True by done. by rewrite IH.
Qed.

(** X7. No parsed name contains a comma, and there are at most as many names
    as there are commas in the input, plus one. *)
Theorem ParseContainerNames_bounds (s : string) :
  Forall (fun t => contains_byte "," t = false) (elements (ParseContainerNames s))
  /\ length (elements (ParseContainerNames s)) <= S (count_byte "," s).
Proof.
  split.
  - eapply Forall_impl; [apply ParseContainerNames_names|]. by intros ? (_ & _ & ?).
  - rewrite ParseContainerNames_eq. simpl.
    rewrite <- (SplitSeq_length s ","), <- (length_fmap TrimSpace (SplitSeq s ",")).
    apply length_filter.
Qed.

(** X8. Parsing distributes over a comma: the names of [s1,s2] are the names
    of [s1] followed by the names of [s2]. *)
Theorem ParseContainerNames_comma (s1 s2 : string) :
  elements (ParseContainerNames (s1 +:+ "," +:+ s2))
  = elements (ParseContainerNames s1) ++ elements (ParseContainerNames s2).
Proof.
  rewrite !ParseContainerNames_eq. simpl.
  change ("," +:+ s2) with (String "," s2).
  by rewrite SplitSeq_app, fmap_app, filter_app.
Qed.

End event_extras.
